(** * StegaScale: the LSB codec of [src/utils/steganography.ts] and the
      capacity helper of [src/App.tsx], embedded and verified.

    The TypeScript functions are translated as they are written: the loops
    keep their cursor [i], their bit cursor [bitIndex] and the in-place
    update [data[i] = ...] of the pixel array; JavaScript numbers that are
    integers are [Z], numbers that may be fractional are [Q], [NaN] is
    [None]; a binary string (a string over the characters '0' and '1', as
    produced by [toString(2)], [padStart(n,'0')] and [padEnd(n,'0')]) is a
    list of booleans, most significant digit first. *)

From Stdlib Require Import ZArith QArith Qround Lia.
From stdpp Require Import base list.

Local Close Scope Q_scope.
Local Open Scope nat_scope.

(** ** The JavaScript built-ins the codec calls *)

Module JS.

(** A string over '0' ([false]) and '1' ([true]). *)
Abbreviation bits := (list bool).

(** Binary digits of a positive number, most significant first. *)
Fixpoint pos_bits (p : positive) : bits :=
  match p with
  | xH => [true]
  | xO q => pos_bits q ++ [false]
  | xI q => pos_bits q ++ [true]
  end.

(** [n.toString(2)] for an integer [n >= 0].  (For [n < 0] JavaScript
    prefixes a minus sign, which [bits] cannot hold; the codec only calls
    it on lengths, character codes and masked bytes, see [and32_nonneg].) *)
Definition toString2 (n : Z) : bits :=
  match n with
  | Z0 => [false]
  | Zpos p => pos_bits p
  | Zneg p => pos_bits p
  end.

(** [s.padStart(n, c)] and [s.padEnd(n, c)] for a one-character pad. *)
Definition padStart (n : nat) (c : bool) (s : bits) : bits :=
  replicate (n - length s) c ++ s.

Definition padEnd (n : nat) (c : bool) (s : bits) : bits :=
  s ++ replicate (n - length s) c.

(** [s.substring(a, b)]: both indices are clamped to the length and
    swapped when [a > b]. *)
Definition substring (s : bits) (a b : nat) : bits :=
  let a' := Nat.min a (length s) in
  let b' := Nat.min b (length s) in
  let lo := Nat.min a' b' in
  let hi := Nat.max a' b' in
  take (hi - lo) (drop lo s).

(** The value of a digit string read left to right. *)
Definition digits_value (s : bits) : Z :=
  fold_left (fun acc b => (2 * acc + Z.b2z b)%Z) s 0%Z.

(** [parseInt(s, 2)] on a binary string: [NaN] ([None]) on the empty
    string, otherwise the value of its digits. *)
Definition parseInt2 (s : bits) : option Z :=
  match s with
  | [] => None
  | _ => Some (digits_value s)
  end.

(** [ToInt32]: the operands and results of [<<], [&] and [|]. [NaN]
    converts to 0. *)
Definition toInt32 (z : Z) : Z :=
  ((z + 2 ^ 31) mod 2 ^ 32 - 2 ^ 31)%Z.

Definition toInt32_num (n : option Z) : Z :=
  match n with
  | None => 0%Z
  | Some z => toInt32 z
  end.

(** [a << k]: the shift count is taken modulo 32. *)
Definition shl32 (a : Z) (k : nat) : Z :=
  toInt32 (Z.shiftl (toInt32 a) (Z.of_nat k mod 32)).

Definition and32 (a b : Z) : Z := Z.land (toInt32 a) (toInt32 b).
Definition or32 (a b : Z) : Z := Z.lor (toInt32 a) (toInt32 b).

(** A store into a [Uint8ClampedArray] clamps to [0, 255]. *)
Definition clamp8 (v : Z) : Z := Z.max 0 (Z.min 255 v).

(** [x < y] on numbers. *)
Definition num_lt (x y : Q) : bool :=
  match (x ?= y)%Q with
  | Lt => true
  | _ => false
  end.

(** [String.fromCharCode(n)]: the code unit [n mod 2^16]; [NaN] gives 0. *)
Definition fromCharCode (n : option Z) : N :=
  match n with
  | None => 0%N
  | Some z => Z.to_N (z mod 65536)
  end.

(** [s.match(/.{1,8}/g) || []]: the successive groups of up to eight
    characters.  [fuel] bounds the number of groups. *)
Fixpoint match_groups8 (fuel : nat) (s : bits) : list bits :=
  match fuel with
  | O => []
  | S fuel' =>
    match s with
    | [] => []
    | _ => take 8 s :: match_groups8 fuel' (drop 8 s)
    end
  end.

Definition match8 (s : bits) : list bits := match_groups8 (length s) s.

End JS.
Import JS.

(** ** [src/utils/steganography.ts] *)

Inductive Error : Type :=
| NoCanvasContext   (* 'Could not get canvas context' *)
| TooSmall          (* 'Image is too small to contain a message.' *)
| InvalidHeader     (* 'No valid message found. ...' *)
| Truncated.        (* 'Image data ended prematurely. ...' *)

Inductive result (A : Type) : Type :=
| Ok (a : A)
| Throw (e : Error).
Arguments Ok {A} a.
Arguments Throw {A} e.

(** A canvas is its 2D context, when [getContext('2d')] gives one, holding
    the RGBA bytes [getImageData(...).data]. *)
Definition Canvas : Type := option (list Z).

(** [dataUrl] is a lossless PNG of the canvas: it is modelled by the bytes
    it encodes. *)
Record SteganoResult : Type := {
  dataUrl : list Z;
  capacity : Z;
  messageLength : nat
}.

(** A string is the list of its UTF-16 code units ([charCodeAt]). *)
Definition stringToBin (str : list N) : bits :=
  concat (map (fun char => padStart 8 false (toString2 (Z.of_N char))) str).

Definition binToString (bin : bits) : list N :=
  map (fun byte => fromCharCode (parseInt2 byte)) (match8 bin).

(** The [for] loop of [encodeLSB]; [fuel] bounds the iterations left. *)
Fixpoint encode_loop (fullBinary : bits) (bitsPerChannel : nat) (mask : Z)
    (fuel i bitIndex : nat) (data : list Z) : list Z :=
  match fuel with
  | O => data
  | S fuel' =>
    if (i <? length data) && (bitIndex <? length fullBinary) then
      if (i + 1) mod 4 =? 0 then
        encode_loop fullBinary bitsPerChannel mask fuel' (i + 1) bitIndex data
      else
        let bitsToHide :=
          substring fullBinary bitIndex (bitIndex + bitsPerChannel) in
        let valueToHide :=
          parseInt2 (padEnd bitsPerChannel false bitsToHide) in
        let data' :=
          <[i := clamp8 (or32 (and32 (default 0%Z (data !! i)) mask)
                              (toInt32_num valueToHide))]> data in
        encode_loop fullBinary bitsPerChannel mask fuel' (i + 1)
                    (bitIndex + bitsPerChannel) data'
    else data
  end.

(** [Math.floor((data.length * 3 / 4) * bitsPerChannel / 8)] *)
Definition encode_capacity (data : list Z) (bitsPerChannel : nat) : Z :=
  Qfloor ((inject_Z (Z.of_nat (length data)) * 3 / 4)
          * inject_Z (Z.of_nat bitsPerChannel) / 8)%Q.

(** The value of [fullBinary] in [encodeLSB]: a 32-digit length header,
    then the digits of the message. *)
Definition fullBinary_of (message : list N) : bits :=
  let binaryMessage := stringToBin message in
  let lengthHeader :=
    padStart 32 false (toString2 (Z.of_nat (length message))) in
  lengthHeader ++ binaryMessage.

Definition encodeLSB (canvas : Canvas) (message : list N)
    (bitsPerChannel : nat) : result SteganoResult :=
  match canvas with
  | None => Throw NoCanvasContext
  | Some data =>
    let fullBinary := fullBinary_of message in
    let mask := shl32 255 bitsPerChannel in
    let data' :=
      encode_loop fullBinary bitsPerChannel mask (length data) 0 0 data in
    Ok {| dataUrl := data';
          capacity := encode_capacity data bitsPerChannel;
          messageLength := length message |}
  end.

(** The two [while] loops of [decodeLSB] are the same loop with a
    different bound on [binaryString.length]. *)
Fixpoint extract_loop (data : list Z) (bitsPerChannel : nat) (bitMask : Z)
    (bound : Z) (fuel : nat) (binaryString : bits) (i : nat) : bits * nat :=
  match fuel with
  | O => (binaryString, i)
  | S fuel' =>
    if (Z.of_nat (length binaryString) <? bound)%Z && (i <? length data) then
      if negb ((i + 1) mod 4 =? 0) then
        let bits :=
          padStart bitsPerChannel false
            (toString2 (and32 (default 0%Z (data !! i)) bitMask)) in
        extract_loop data bitsPerChannel bitMask bound fuel'
                     (binaryString ++ bits) (i + 1)
      else
        extract_loop data bitsPerChannel bitMask bound fuel'
                     binaryString (i + 1)
    else (binaryString, i)
  end.

(** [(data.length / 4) * 3 * bitsPerChannel] *)
Definition totalAvailableBits (data : list Z) (bitsPerChannel : nat) : Q :=
  ((inject_Z (Z.of_nat (length data)) / 4) * 3
   * inject_Z (Z.of_nat bitsPerChannel))%Q.

(** [decodeLSB] on the pixel bytes, returning with its outcome the value of
    the cursor [i] when it returns or throws: the number of buffer bytes
    the walk has visited. *)
Definition decode_walk (data : list Z) (bitsPerChannel : nat)
    : nat * result (list N) :=
  let bitMask := (shl32 1 bitsPerChannel - 1)%Z in
  let total := totalAvailableBits data bitsPerChannel in
  if num_lt total 32 then (0, Throw TooSmall)
  else
    let '(binaryString, i) :=
      extract_loop data bitsPerChannel bitMask 32 (length data) [] 0 in
    let lengthBits := substring binaryString 0 32 in
    let messageLength := parseInt2 lengthBits in
    let maxPossibleBytes := Qfloor ((total - 32) / 8)%Q in
    match messageLength with
    | None => (i, Throw InvalidHeader)     (* isNaN(messageLength) *)
    | Some messageLength =>
      if (messageLength <=? 0)%Z || (messageLength >? maxPossibleBytes)%Z
      then (i, Throw InvalidHeader)
      else
        let requiredBits := (32 + messageLength * 8)%Z in
        let '(binaryString, i) :=
          extract_loop data bitsPerChannel bitMask requiredBits
                       (length data - i) binaryString i in
        if (Z.of_nat (length binaryString) <? requiredBits)%Z
        then (i, Throw Truncated)
        else
          let messageBits :=
            substring binaryString 32 (Z.to_nat requiredBits) in
          (i, Ok (binToString messageBits))
    end.

Definition decodeLSB (canvas : Canvas) (bitsPerChannel : nat)
    : result (list N) :=
  match canvas with
  | None => Throw NoCanvasContext
  | Some data => snd (decode_walk data bitsPerChannel)
  end.

(** ** [src/App.tsx]: the capacity shown to the user *)

Module App.

(** The body of the [useEffect] that calls [setCapacity], as a function
    of the image's dimensions, the scale slider and the bit depth. *)
Definition capacity (width height : nat) (scale : Q) (bitsPerChannel : nat)
    : Z :=
  let pixels :=
    ((inject_Z (Z.of_nat width) * scale)
     * (inject_Z (Z.of_nat height) * scale))%Q in
  let totalBits := (pixels * 3 * inject_Z (Z.of_nat bitsPerChannel))%Q in
  let bytes := (Qfloor (totalBits / 8)%Q - 4)%Z in
  Z.max 0 bytes.

End App.

(** ** The walk over the colour bytes *)

(** The bytes of a [Uint8ClampedArray]. *)
Definition is_byte (d : Z) : Prop := (0 <= d < 256)%Z.

(** The digits the decoder reads from one colour byte. *)
Definition lsb_chunk (k : nat) (d : Z) : bits :=
  padStart k false (toString2 (and32 d (shl32 1 k - 1)%Z)).

(** All the digits the decoder's walk can read from [data], whose first
    byte has index [i]: the alpha bytes, at the indices with
    [(i + 1) mod 4 = 0], carry none. *)
Fixpoint channel_bits (k i : nat) (data : list Z) : bits :=
  match data with
  | [] => []
  | d :: rest =>
    (if (i + 1) mod 4 =? 0 then [] else lsb_chunk k d)
    ++ channel_bits k (S i) rest
  end.

Definition extractable_bits (k : nat) (data : list Z) : bits :=
  channel_bits k 0 data.

(** The number of colour (non-alpha) indices among [i, i + n). *)
Fixpoint rgb_count (i n : nat) : nat :=
  match n with
  | O => 0
  | S n' => (if (i + 1) mod 4 =? 0 then 0 else 1) + rgb_count (S i) n'
  end.

(** The encoder's loop seen from the bytes still to visit: [rest] is
    [data] from index [i] on. *)
Fixpoint encode_walk (fullBinary : bits) (k : nat) (mask : Z)
    (i bitIndex : nat) (rest : list Z) : list Z :=
  match rest with
  | [] => []
  | d :: rest' =>
    if bitIndex <? length fullBinary then
      if (i + 1) mod 4 =? 0 then
        d :: encode_walk fullBinary k mask (S i) bitIndex rest'
      else
        clamp8 (or32 (and32 d mask)
                     (toInt32_num
                        (parseInt2
                           (padEnd k false
                              (substring fullBinary bitIndex (bitIndex + k))))))
        :: encode_walk fullBinary k mask (S i) (bitIndex + k) rest'
    else rest
  end.

(** The header the decoder parses: the first 32 digits it can read. *)
Definition header_value (k : nat) (data : list Z) : option Z :=
  parseInt2 (substring (extractable_bits k data) 0 32).

(** The decoder's test [isNaN(messageLength) || messageLength <= 0 ||
    messageLength > maxPossibleBytes]. *)
Definition header_invalid (header : option Z) (maxBytes : Z) : Prop :=
  match header with
  | None => True
  | Some m => (m <= 0 \/ m > maxBytes)%Z
  end.

(** What one iteration of the encoder stores at a colour byte [d], and
    what the decoder's mask reads back from it; [v] is the value of the
    [bitsPerChannel] digits to hide. *)
Definition byte_check (k : nat) (d v : Z) : bool :=
  let stored := clamp8 (or32 (and32 d (shl32 255 k)) (toInt32 v)) in
  let low := Z.lnot (2 ^ Z.of_nat k - 1) in
  ((0 <=? stored) && (stored <? 256)
   && (Z.land stored low =? Z.land d low)
   && (and32 stored (shl32 1 k - 1) =? v)
   && (0 <=? and32 d (shl32 1 k - 1))
   && (and32 d (shl32 1 k - 1) <? 2 ^ Z.of_nat k))%Z.


(** ** [src/App.tsx]: the handler of the process button *)

Module Handlers.

Inductive Mode : Type := encode | decode.

(** What the [catch] of [handleProcess] stores with [setError]: the message
    of the error thrown. *)
Inductive Failure : Type :=
| MessageTooLong (capacity : Z)
    (* `Message too long for current capacity (${capacity} bytes).` *)
| Codec (e : Error).

Section Handlers.

(** The browser's part: an [HTMLImageElement] with its dimensions;
    [scaleImage], the canvas on which the image is drawn at the scaled size;
    and the canvas of the decode branch, on which [drawImage] draws the
    image at its own size.  A canvas is [None] when [getContext('2d')]
    gives no context, the case in which [scaleImage] and the decode branch
    throw 'Could not get canvas context'. *)
Context {Image : Type}.
Context (width height : Image -> nat).
Context (scaleImage : Image -> Q -> Canvas).
Context (drawImage : Image -> Canvas).

(** The state of the component ([useState]). *)
Record State : Type := {
  originalImage : option Image;
  message : list N;
  decodedMessage : option (list N);
  bitsPerChannel : nat;
  scale : Q;
  mode : Mode;
  resultImage : option (list Z);
  isProcessing : bool;
  error : option Failure;
  capacity : Z
}.

Definition setIsProcessing (b : bool) (st : State) : State :=
  {| originalImage := originalImage st; message := message st;
     decodedMessage := decodedMessage st;
     bitsPerChannel := bitsPerChannel st; scale := scale st;
     mode := mode st; resultImage := resultImage st;
     isProcessing := b; error := error st; capacity := capacity st |}.

Definition setError (e : option Failure) (st : State) : State :=
  {| originalImage := originalImage st; message := message st;
     decodedMessage := decodedMessage st;
     bitsPerChannel := bitsPerChannel st; scale := scale st;
     mode := mode st; resultImage := resultImage st;
     isProcessing := isProcessing st; error := e; capacity := capacity st |}.

Definition setResultImage (r : option (list Z)) (st : State) : State :=
  {| originalImage := originalImage st; message := message st;
     decodedMessage := decodedMessage st;
     bitsPerChannel := bitsPerChannel st; scale := scale st;
     mode := mode st; resultImage := r;
     isProcessing := isProcessing st; error := error st;
     capacity := capacity st |}.

Definition setDecodedMessage (d : option (list N)) (st : State) : State :=
  {| originalImage := originalImage st; message := message st;
     decodedMessage := d;
     bitsPerChannel := bitsPerChannel st; scale := scale st;
     mode := mode st; resultImage := resultImage st;
     isProcessing := isProcessing st; error := error st;
     capacity := capacity st |}.

(** The [useEffect] on [originalImage], [scale] and [bitsPerChannel]: with
    an image loaded, [capacity] is what [App.capacity] computes. *)
Definition capacity_synced (st : State) : Prop :=
  match originalImage st with
  | None => True
  | Some img =>
    capacity st
    = App.capacity (width img) (height img) (scale st) (bitsPerChannel st)
  end.

(** The body of the [try] of [handleProcess]: the state update it makes,
    or the error it throws. *)
Definition process (img : Image) (st : State) : Failure + (State -> State) :=
  match mode st with
  | encode =>
    match scaleImage img (scale st) with
    | None => inl (Codec NoCanvasContext)
    | Some data =>
      if (Z.of_nat (length (message st)) >? capacity st)%Z
      then inl (MessageTooLong (capacity st))
      else
        match encodeLSB (Some data) (message st) (bitsPerChannel st) with
        | Ok result => inr (setResultImage (Some (dataUrl result)))
        | Throw e => inl (Codec e)
        end
    end
  | decode =>
    match decodeLSB (drawImage img) (bitsPerChannel st) with
    | Ok decoded => inr (setDecodedMessage (Some decoded))
    | Throw e => inl (Codec e)
    end
  end.

Definition handleProcess (st : State) : State :=
  match originalImage st with
  | None => st
  | Some img =>
    let st1 := setError None (setIsProcessing true st) in
    let st2 :=
      match process img st with
      | inr update => update st1
      | inl err => setError (Some err) st1
      end in
    setIsProcessing false st2
  end.

End Handlers.

End Handlers.

(** ** Sample states of the application *)

Module Samples.

Import Handlers.

(** A browser in which every image is 4x4, or 3x3, and every scaled canvas
    is the all-zero 4x4 canvas: what a 4x4 image gives at scale 1 and a 3x3
    image at scale 1.5, the width and height 4.5 of the canvas being
    truncated to 4. *)
Definition zero_canvas : unit -> Q -> Canvas :=
  fun _ _ => Some (replicate 64 0%Z).

Definition no_canvas : unit -> Canvas := fun _ => None.

(** Encode mode, a 4x4 image at scale 1, one bit per channel, the message
    "A" and the capacity 2 that [App.capacity] computes. *)
Definition fitting : State :=
  {| originalImage := Some tt; message := [65%N];
     decodedMessage := None; bitsPerChannel := 1;
     scale := inject_Z (Z.of_nat 1); mode := encode;
     resultImage := None; isProcessing := false; error := None;
     capacity := App.capacity 4 4 (inject_Z (Z.of_nat 1)) 1 |}.

(** Encode mode, a 3x3 image at scale 1.5, one bit per channel, the
    message "abc" and the capacity 3 that [App.capacity] computes. *)
Definition overestimated : State :=
  {| originalImage := Some tt; message := [97%N; 98%N; 99%N];
     decodedMessage := None; bitsPerChannel := 1;
     scale := 3 # 2; mode := encode;
     resultImage := None; isProcessing := false; error := None;
     capacity := App.capacity 3 3 (3 # 2) 1 |}.

(** Encode mode with an earlier result in the state and a message longer
    than the capacity. *)
Definition too_long : State :=
  {| originalImage := Some tt; message := [97%N; 98%N; 99%N];
     decodedMessage := None; bitsPerChannel := 1;
     scale := inject_Z (Z.of_nat 1); mode := encode;
     resultImage := Some (replicate 64 1%Z); isProcessing := false;
     error := None;
     capacity := App.capacity 4 4 (inject_Z (Z.of_nat 1)) 1 |}.

(** An opaque grey 4x4 canvas, and the buffer that encoding "A" into it
    with one bit per channel leaves. *)
Definition grey : list Z := concat (replicate 16 [200; 200; 200; 255]%Z).






End Samples.

(** ** The decoder without its loops *)

(** Decoding in one pass, for comparison with [decodeLSB]: on a buffer of
    [n] pixels, read all the digits [E] of the colour bytes first, then
    test the sizes, parse the header and cut the payload out. *)
Definition decode_direct (n k : nat) (E : bits) : result (list N) :=
  if (Z.of_nat (n * 3 * k) <? 32)%Z then Throw TooSmall
  else
    match parseInt2 (substring E 0 32) with
    | None => Throw InvalidHeader
    | Some m =>
      if (m <=? 0)%Z || (m >? (Z.of_nat (n * 3 * k) - 32) / 8)%Z
      then Throw InvalidHeader
      else Ok (binToString (substring E 32 (Z.to_nat (32 + m * 8))))
    end.

(** ** The payload phase of the decoder *)

(** Lines 102-117 of [decodeLSB], as a function of the state
    ([binaryString], [i]) that the header phase leaves and of
    [messageLength]: the second loop, the test of the digits read against
    [requiredBits], and the cut of the payload.  [decode_walk] is the
    header phase followed, for a header that passes the validation, by this
    phase ([decode_walk_payload_phase]). *)
Definition payload_phase (data : list Z) (bitsPerChannel : nat)
    (binaryString : bits) (i : nat) (messageLength : Z)
    : nat * result (list N) :=
  let bitMask := (shl32 1 bitsPerChannel - 1)%Z in
  let requiredBits := (32 + messageLength * 8)%Z in
  let '(binaryString, i) :=
    extract_loop data bitsPerChannel bitMask requiredBits
                 (length data - i) binaryString i in
  if (Z.of_nat (length binaryString) <? requiredBits)%Z
  then (i, Throw Truncated)
  else
    let messageBits := substring binaryString 32 (Z.to_nat requiredBits) in
    (i, Ok (binToString messageBits)).

(** [payload] is made of the digits [E] from digit 32 on, eight digits for
    each character, the most significant first: the digit [32 + 8*j + b]
    of [E] is the bit [7 - b] of the code of the character [j], and the
    code has no other bits. *)
Definition payload_of_digits (E : bits) (payload : list N) : Prop :=
  forall (j : nat) (c : N),
    payload !! j = Some c ->
    (c < 256)%N
    /\ forall b : nat,
         b < 8 ->
         E !! (32 + 8 * j + b)
         = Some (Z.testbit (Z.of_N c) (Z.of_nat (7 - b))).

(** ** Checks by evaluation over the bytes *)

(** The decoder's mask and the encoder's mask, as the numbers they are for
    a bit depth from 1 to 4. *)
Definition masks_check (k : nat) : bool :=
  ((shl32 1 k - 1 =? 2 ^ Z.of_nat k - 1)
   && (toInt32 (shl32 1 k - 1) =? 2 ^ Z.of_nat k - 1)
   && (toInt32 (shl32 255 k) =? shl32 255 k)
   && (Z.land (Z.lnot (2 ^ Z.of_nat k - 1)) (shl32 255 k)
       =? shl32 255 k))%Z.


(** ** Facts about the built-ins *)

Section Digits.

Local Open Scope Z_scope.

Lemma fold_digits_acc (s : bits) (acc : Z) :
  fold_left (fun a b => 2 * a + Z.b2z b) s acc
  = acc * 2 ^ Z.of_nat (length s) + digits_value s.
Proof.
  unfold digits_value. revert acc.
  induction s as [|b s IH]; intros acc.
  - simpl. lia.
  - cbn [fold_left length]. rewrite IH, (IH (2 * 0 + Z.b2z b)).
    rewrite Nat2Z.inj_succ, Z.pow_succ_r by lia. ring.
Qed.

Lemma digits_value_cons (b : bool) (s : bits) :
  digits_value (b :: s)
  = Z.b2z b * 2 ^ Z.of_nat (length s) + digits_value s.
Proof.
  unfold digits_value at 1. cbn [fold_left].
  rewrite fold_digits_acc. ring.
Qed.

Lemma digits_value_app (s t : bits) :
  digits_value (s ++ t)
  = digits_value s * 2 ^ Z.of_nat (length t) + digits_value t.
Proof.
  unfold digits_value at 1. rewrite fold_left_app.
  fold (digits_value s). apply fold_digits_acc.
Qed.

Lemma digits_value_bound (s : bits) :
  0 <= digits_value s < 2 ^ Z.of_nat (length s).
Proof.
  induction s as [|b s IH].
  - cbn. lia.
  - rewrite digits_value_cons. cbn [length].
    rewrite Nat2Z.inj_succ, Z.pow_succ_r by lia.
    destruct b; cbn [Z.b2z]; lia.
Qed.

Lemma digits_value_zeros (n : nat) :
  digits_value (replicate n false) = 0.
Proof.
  induction n as [|n IH]; [reflexivity|].
  cbn [replicate]. rewrite digits_value_cons, IH. cbn [Z.b2z]. lia.
Qed.

(** Two digit strings of one length with one value are the same string. *)
Lemma digits_value_inj (s t : bits) :
  length s = length t -> digits_value s = digits_value t -> s = t.
Proof.
  revert t. induction s as [|b s IH]; intros [|c t] Hlen Hval;
    try discriminate; [reflexivity|].
  injection Hlen as Hlen.
  rewrite !digits_value_cons, Hlen in Hval.
  pose proof (digits_value_bound s) as Hs.
  pose proof (digits_value_bound t) as Ht.
  rewrite Hlen in Hs.
  assert (b = c /\ digits_value s = digits_value t) as [-> Hv].
  { destruct b, c; cbn [Z.b2z] in Hval; split; try reflexivity; lia. }
  f_equal. by apply IH.
Qed.

Lemma pos_bits_value (p : positive) : digits_value (pos_bits p) = Z.pos p.
Proof.
  induction p as [q IH|q IH|]; cbn [pos_bits]; [| |reflexivity];
    rewrite digits_value_app, IH; cbn; lia.
Qed.

Lemma pos_bits_length (p : positive) (n : nat) :
  Z.pos p < 2 ^ Z.of_nat n -> (length (pos_bits p) <= n)%nat.
Proof.
  revert n. induction p as [q IH|q IH|]; intros [|n] Hlt;
    cbn [pos_bits]; rewrite ?length_app; cbn [length];
    try (cbn in Hlt; lia);
    rewrite Nat2Z.inj_succ, Z.pow_succ_r in Hlt by lia;
    specialize (IH n); lia.
Qed.

Lemma toString2_value (z : Z) : 0 <= z -> digits_value (toString2 z) = z.
Proof.
  destruct z as [|p|p]; intros Hz; [reflexivity| |lia].
  apply pos_bits_value.
Qed.

Lemma toString2_length (z : Z) (n : nat) :
  0 <= z < 2 ^ Z.of_nat n -> (1 <= n)%nat ->
  (length (toString2 z) <= n)%nat.
Proof.
  destruct z as [|p|p]; intros Hz Hn; [cbn; lia| |lia].
  apply pos_bits_length. lia.
Qed.

Lemma toString2_nonempty (z : Z) : toString2 z <> [].
Proof.
  assert (forall p, pos_bits p <> []) as Hp.
  { intros [q|q|]; cbn; try discriminate;
      intros H; apply app_eq_nil in H as [_ H]; discriminate. }
  destruct z; cbn; [discriminate|apply Hp..].
Qed.

End Digits.

Section Padding.

Lemma length_padStart (n : nat) (c : bool) (s : bits) :
  length (padStart n c s) = Nat.max n (length s).
Proof. unfold padStart. rewrite length_app, length_replicate. lia. Qed.

Lemma length_padEnd (n : nat) (c : bool) (s : bits) :
  length (padEnd n c s) = Nat.max n (length s).
Proof. unfold padEnd. rewrite length_app, length_replicate. lia. Qed.

Lemma digits_value_padStart (n : nat) (s : bits) :
  digits_value (padStart n false s) = digits_value s.
Proof.
  unfold padStart. rewrite digits_value_app, digits_value_zeros. lia.
Qed.

Lemma padStart_nonempty (n : nat) (c : bool) (s : bits) :
  s <> [] -> padStart n c s <> [].
Proof.
  unfold padStart. intros Hs H. by apply app_eq_nil in H as [_ H].
Qed.

Lemma parseInt2_value (s : bits) :
  s <> [] -> parseInt2 s = Some (digits_value s).
Proof. by destruct s. Qed.

(** Reading back a padded [toString(2)]. *)
Lemma parseInt2_padStart_toString2 (n : nat) (z : Z) :
  (0 <= z)%Z -> parseInt2 (padStart n false (toString2 z)) = Some z.
Proof.
  intros Hz. rewrite parseInt2_value.
  - by rewrite digits_value_padStart, toString2_value.
  - apply padStart_nonempty, toString2_nonempty.
Qed.

Lemma length_padStart_toString2 (n : nat) (z : Z) :
  (0 <= z < 2 ^ Z.of_nat n)%Z -> 1 <= n ->
  length (padStart n false (toString2 z)) = n.
Proof.
  intros Hz Hn. rewrite length_padStart.
  pose proof (toString2_length z n Hz Hn). lia.
Qed.

(** Printing the value of an [n]-digit string on [n] digits gives the
    string back. *)
Lemma padStart_toString2_digits (s : bits) :
  s <> [] ->
  padStart (length s) false (toString2 (digits_value s)) = s.
Proof.
  intros Hs. pose proof (digits_value_bound s) as Hb.
  apply digits_value_inj.
  - apply length_padStart_toString2; [done|].
    destruct s; [done|cbn; lia].
  - rewrite digits_value_padStart. apply toString2_value. lia.
Qed.

Lemma substring_le (s : bits) (a b : nat) :
  a <= b -> substring s a b = take (b - a) (drop a s).
Proof.
  intros Hab. unfold substring.
  destruct (decide (b <= length s)) as [Hb|Hb].
  - f_equal; [|f_equal]; lia.
  - destruct (decide (a <= length s)) as [Ha|Ha].
    + replace (Nat.min (Nat.min a (length s)) (Nat.min b (length s)))
        with a by lia.
      rewrite !take_ge; [done|rewrite length_drop; lia..].
    + rewrite !drop_ge by lia. by rewrite !take_nil.
Qed.

End Padding.

(** ** 32-bit operators on bytes *)

Section Int32.

Local Open Scope Z_scope.

Lemma toInt32_small (z : Z) : - 2 ^ 31 <= z < 2 ^ 31 -> toInt32 z = z.
Proof. intros Hz. unfold toInt32. rewrite Z.mod_small; lia. Qed.

Lemma byte_check_all :
  forallb (fun k =>
    forallb (fun d =>
      forallb (fun v => byte_check k (Z.of_nat d) (Z.of_nat v))
              (seq 0 (2 ^ k)))
            (seq 0 256))
          [1; 2; 3; 4]%nat = true.
Proof. vm_compute. reflexivity. Qed.

Lemma byte_check_spec (k : nat) (d v : Z) :
  (1 <= k <= 4)%nat -> 0 <= d < 256 -> 0 <= v < 2 ^ Z.of_nat k ->
  byte_check k d v = true.
Proof.
  intros Hk Hd Hv.
  assert (In k [1; 2; 3; 4]%nat) as Hin by (cbn; lia).
  assert (In (Z.to_nat d) (seq 0 256)) as Hind by (apply in_seq; lia).
  assert (In (Z.to_nat v) (seq 0 (2 ^ k))) as Hinv.
  { apply in_seq. split; [lia|]. apply Nat2Z.inj_lt.
    rewrite Z2Nat.id by lia. cbn [Nat.add].
    rewrite Nat2Z.inj_pow. apply Hv. }
  pose proof (proj1 (forallb_forall _ _) byte_check_all k Hin) as Hk'.
  cbv beta in Hk'.
  pose proof (proj1 (forallb_forall _ _) Hk' _ Hind) as Hd'.
  cbv beta in Hd'.
  pose proof (proj1 (forallb_forall _ _) Hd' _ Hinv) as Hv'.
  cbv beta in Hv'. by rewrite !Z2Nat.id in Hv' by lia.
Qed.

(** The decoder prints [data[i] & bitMask], never a negative number. *)
Lemma and32_nonneg (d bitMask : Z) : 0 <= d < 2 ^ 31 -> 0 <= and32 d bitMask.
Proof.
  intros Hd. unfold and32. apply Z.land_nonneg. left.
  rewrite toInt32_small; lia.
Qed.

End Int32.

(** ** Bytes, counting and the digits of a buffer *)

Section Bytes.

Context (k : nat) (Hk : 1 <= k <= 4).

Lemma stored_byte (d : Z) (chunk : bits) :
  is_byte d -> length chunk = k ->
  let stored :=
    clamp8 (or32 (and32 d (shl32 255 k)) (toInt32_num (parseInt2 chunk))) in
  is_byte stored
  /\ Z.land stored (Z.lnot (2 ^ Z.of_nat k - 1))
     = Z.land d (Z.lnot (2 ^ Z.of_nat k - 1))
  /\ lsb_chunk k stored = chunk.
Proof.
  intros Hd Hlen stored.
  assert (chunk <> []) as Hne by (destruct chunk; [cbn in Hlen; lia|done]).
  pose proof (digits_value_bound chunk) as Hv. rewrite Hlen in Hv.
  pose proof (byte_check_spec k d _ Hk Hd Hv) as Hc.
  unfold byte_check in Hc.
  subst stored. rewrite (parseInt2_value _ Hne). cbn [toInt32_num].
  repeat (apply andb_prop in Hc as [Hc ?]).
  repeat match goal with
         | H : (_ <=? _)%Z = true |- _ => apply Z.leb_le in H
         | H : (_ <? _)%Z = true |- _ => apply Z.ltb_lt in H
         | H : (_ =? _)%Z = true |- _ => apply Z.eqb_eq in H
         end.
  split; [done|]. split; [done|].
  unfold lsb_chunk.
  match goal with H : and32 _ _ = digits_value chunk |- _ => rewrite H end.
  rewrite <- Hlen at 1. by apply padStart_toString2_digits.
Qed.

Lemma length_lsb_chunk (d : Z) : is_byte d -> length (lsb_chunk k d) = k.
Proof.
  intros Hd.
  assert (0 <= 0 < 2 ^ Z.of_nat k)%Z as Hv by lia.
  pose proof (byte_check_spec k d _ Hk Hd Hv) as Hc.
  unfold byte_check in Hc.
  repeat (apply andb_prop in Hc as [Hc ?]).
  apply length_padStart_toString2; [|lia].
  split; [by apply Z.leb_le|by apply Z.ltb_lt].
Qed.

End Bytes.

Section Counting.

Lemma rgb_count_add (i n m : nat) :
  rgb_count i (n + m) = rgb_count i n + rgb_count (i + n) m.
Proof.
  revert i. induction n as [|n IH]; intros i; cbn [rgb_count Nat.add].
  - by rewrite Nat.add_0_r.
  - rewrite IH. replace (S i + n) with (i + S n) by lia. lia.
Qed.

Lemma rgb_count_0 (n : nat) : rgb_count 0 n = n - n / 4.
Proof.
  induction n as [|n IH]; [reflexivity|].
  replace (S n) with (n + 1) at 1 by lia.
  rewrite rgb_count_add, IH. cbn [rgb_count Nat.add].
  pose proof (Nat.div_mod_eq n 4) as E1.
  pose proof (Nat.mod_upper_bound n 4) as B1.
  pose proof (Nat.div_mod_eq (n + 1) 4) as E2.
  pose proof (Nat.mod_upper_bound (n + 1) 4) as B2.
  replace (S n) with (n + 1) by lia.
  destruct (Nat.eqb_spec ((n + 1) mod 4) 0); lia.
Qed.

Lemma rgb_count_pixels (n : nat) : rgb_count 0 (4 * n) = 3 * n.
Proof.
  rewrite rgb_count_0.
  replace (4 * n) with (n * 4) by lia. rewrite Nat.div_mul by lia. lia.
Qed.

Lemma channel_bits_app (k i : nat) (l1 l2 : list Z) :
  channel_bits k i (l1 ++ l2)
  = channel_bits k i l1 ++ channel_bits k (i + length l1) l2.
Proof.
  revert i. induction l1 as [|d l1 IH]; intros i; cbn [channel_bits app length].
  - by rewrite Nat.add_0_r.
  - rewrite IH, <- app_assoc. by replace (S i + length l1) with (i + S (length l1)) by lia.
Qed.

Lemma length_channel_bits (k i : nat) (data : list Z) :
  1 <= k <= 4 -> Forall is_byte data ->
  length (channel_bits k i data) = k * rgb_count i (length data).
Proof.
  intros Hk Hdata. revert i.
  induction Hdata as [|d rest Hd _ IH]; intros i;
    cbn [channel_bits length rgb_count]; [lia|].
  rewrite length_app, IH.
  destruct ((i + 1) mod 4 =? 0); cbn [length]; [lia|].
  rewrite length_lsb_chunk by done. lia.
Qed.

Lemma length_extractable_bits (k n : nat) (data : list Z) :
  1 <= k <= 4 -> Forall is_byte data -> length data = 4 * n ->
  length (extractable_bits k data) = n * 3 * k.
Proof.
  intros Hk Hdata Hlen. unfold extractable_bits.
  rewrite length_channel_bits, Hlen, rgb_count_pixels by done. lia.
Qed.

End Counting.

(** ** The encoder's loop *)

Section Encoder.

Context (F : bits) (k : nat) (mask : Z).

(** The loop with its in-place updates computes the walk. *)
Lemma encode_loop_walk (fuel i bitIndex : nat) (data : list Z) :
  length data - i <= fuel ->
  encode_loop F k mask fuel i bitIndex data
  = take i data ++ encode_walk F k mask i bitIndex (drop i data).
Proof.
  revert i bitIndex data.
  induction fuel as [|fuel IH]; intros i bitIndex data Hfuel; cbn [encode_loop].
  - rewrite take_ge, drop_ge by lia. by rewrite app_nil_r.
  - destruct (Nat.ltb_spec i (length data)) as [Hi|Hi]; cbn [andb].
    2: { rewrite take_ge, drop_ge by lia. by rewrite app_nil_r. }
    destruct (lookup_lt_is_Some_2 data i Hi) as [d Hd].
    rewrite (drop_S _ _ _ Hd). cbn [encode_walk].
    destruct (bitIndex <? length F).
    2: { by rewrite <- (drop_S _ _ _ Hd), take_drop. }
    replace (i + 1) with (S i) by lia.
    destruct (S i mod 4 =? 0).
    + rewrite IH by lia. rewrite (take_S_r _ _ _ Hd), <- app_assoc. done.
    + rewrite IH by (rewrite length_insert; lia).
      rewrite Hd. cbn [default].
      rewrite (take_S_r _ _ _ (list_lookup_insert_eq _ _ _ Hi)).
      rewrite take_insert_ge, drop_insert_lt by lia.
      by rewrite <- app_assoc.
Qed.

Lemma length_encode_walk (i bitIndex : nat) (rest : list Z) :
  length (encode_walk F k mask i bitIndex rest) = length rest.
Proof.
  revert i bitIndex. induction rest as [|d rest IH]; intros i bitIndex;
    cbn [encode_walk]; [done|].
  destruct (bitIndex <? length F); [|done].
  destruct ((i + 1) mod 4 =? 0); cbn [length]; by rewrite IH.
Qed.

Lemma length_hidden_chunk (bitIndex : nat) :
  length (padEnd k false (substring F bitIndex (bitIndex + k))) = k.
Proof.
  rewrite length_padEnd, substring_le, length_take, length_drop by lia. lia.
Qed.

End Encoder.

Section EncoderBytes.

Context (F : bits) (k : nat) (Hk : 1 <= k <= 4).

Local Abbreviation mask := (shl32 255 k).
Local Abbreviation low := (Z.lnot (2 ^ Z.of_nat k - 1)).

Lemma encode_walk_bytes (i bitIndex : nat) (rest : list Z) :
  Forall is_byte rest ->
  Forall is_byte (encode_walk F k mask i bitIndex rest).
Proof.
  intros Hrest. revert i bitIndex.
  induction Hrest as [|d rest Hd Hrest IH]; intros i bitIndex;
    cbn [encode_walk]; [done|].
  destruct (bitIndex <? length F); [|by constructor].
  destruct ((i + 1) mod 4 =? 0); constructor; try apply IH; [done|].
  by apply (stored_byte k Hk d _ Hd (length_hidden_chunk F k bitIndex)).
Qed.

(** What the walk does to the byte [j] places ahead: its high bits stay,
    an alpha byte stays, and so does any byte reached once the bit cursor
    has passed the end of [F]. *)
Lemma encode_walk_frame (rest : list Z) (i bitIndex j : nat) (d : Z) :
  Forall is_byte rest -> rest !! j = Some d ->
  exists d',
    encode_walk F k mask i bitIndex rest !! j = Some d'
    /\ Z.land d' low = Z.land d low
    /\ ((i + j + 1) mod 4 = 0 -> d' = d)
    /\ (length F <= bitIndex + k * rgb_count i j -> d' = d).
Proof.
  intros Hrest. revert i bitIndex j.
  induction Hrest as [|d0 rest Hd0 Hrest IH]; intros i bitIndex j Hj;
    [done|].
  cbn [encode_walk].
  destruct (Nat.ltb_spec bitIndex (length F)) as [Hb|Hb].
  2: { exists d. by rewrite Hj. }
  destruct j as [|j].
  - injection Hj as ->. cbn [rgb_count].
    destruct (Nat.eqb_spec ((i + 1) mod 4) 0) as [Ha|Ha].
    + by exists d.
    + eexists. split; [reflexivity|].
      destruct (stored_byte k Hk d _ Hd0 (length_hidden_chunk F k bitIndex))
        as (_ & Hhigh & _).
      split; [exact Hhigh|].
      split; [rewrite Nat.add_0_r; done|lia].
  - cbn [lookup list_lookup] in Hj. cbn [rgb_count].
    destruct (Nat.eqb_spec ((i + 1) mod 4) 0) as [Ha|Ha].
    + destruct (IH (S i) bitIndex j Hj) as (d' & Hl & Hh & Halpha & Hpast).
      exists d'. split; [exact Hl|]. split; [exact Hh|].
      split; [|exact Hpast].
      replace (i + S j + 1) with (S i + j + 1) by lia. exact Halpha.
    + destruct (IH (S i) (bitIndex + k) j Hj) as (d' & Hl & Hh & Halpha & Hpast).
      exists d'. split; [exact Hl|]. split; [exact Hh|].
      split.
      * replace (i + S j + 1) with (S i + j + 1) by lia. exact Halpha.
      * intros Hlen. apply Hpast. lia.
Qed.

(** The digits the decoder can read after the walk are the digits of [F]
    from [bitIndex] on, as far as [F] and the colour bytes go. *)
Lemma encode_walk_bits (rest : list Z) (i bitIndex : nat) :
  Forall is_byte rest ->
  take (length F - bitIndex)
       (channel_bits k i (encode_walk F k mask i bitIndex rest))
  = take (k * rgb_count i (length rest)) (drop bitIndex F).
Proof.
  intros Hrest. revert i bitIndex.
  induction Hrest as [|d rest Hd Hrest IH]; intros i bitIndex.
  - cbn [encode_walk channel_bits length rgb_count].
    by rewrite Nat.mul_0_r, take_nil, take_0.
  - cbn [encode_walk].
    destruct (Nat.ltb_spec bitIndex (length F)) as [Hb|Hb].
    2: { replace (length F - bitIndex) with 0 by lia.
         rewrite drop_ge by lia. by rewrite take_0, take_nil. }
    cbn [length rgb_count].
    destruct ((i + 1) mod 4 =? 0) eqn:Ha; cbn [channel_bits]; rewrite Ha.
    + cbn [app Nat.add]. apply IH.
    + destruct (stored_byte k Hk d _ Hd (length_hidden_chunk F k bitIndex))
        as (_ & _ & ->).
      rewrite substring_le by lia.
      replace (bitIndex + k - bitIndex) with k by lia.
      destruct (decide (bitIndex + k <= length F)) as [Hfit|Hfit].
      * assert (length (take k (drop bitIndex F)) = k) as Hlen
          by (rewrite length_take, length_drop; lia).
        unfold padEnd. rewrite Hlen, Nat.sub_diag. cbn [replicate].
        rewrite app_nil_r, take_app, Hlen.
        rewrite (take_ge (take k _)) by lia.
        replace (length F - bitIndex - k) with (length F - (bitIndex + k))
          by lia.
        rewrite IH.
        replace (k * (1 + rgb_count (S i) (length rest)))
          with (k + k * rgb_count (S i) (length rest)) by lia.
        rewrite <- take_take_drop, drop_drop. done.
      * rewrite (take_ge (drop bitIndex F) k) by (rewrite length_drop; lia).
        rewrite (take_ge (drop bitIndex F)) by (rewrite length_drop; lia).
        unfold padEnd. rewrite <- !app_assoc.
        rewrite take_app_length'; [done|by rewrite length_drop].
Qed.

End EncoderBytes.

(** ** The decoder's loop *)

Section Decoder.

Context (data : list Z) (k : nat).

Local Abbreviation bitMask := (shl32 1 k - 1)%Z.

Lemma extractable_bits_snoc (i : nat) (d : Z) :
  data !! i = Some d ->
  extractable_bits k (take (S i) data)
  = extractable_bits k (take i data)
    ++ (if (i + 1) mod 4 =? 0 then [] else lsb_chunk k d).
Proof.
  intros Hd. unfold extractable_bits.
  rewrite (take_S_r _ _ _ Hd), channel_bits_app.
  rewrite length_take_le by (apply Nat.lt_le_incl, lookup_lt_is_Some; eauto).
  cbn [channel_bits Nat.add]. by rewrite app_nil_r.
Qed.

(** The digits read from the first [i] bytes are the first digits read
    from the whole buffer. *)
Lemma extractable_bits_take (i : nat) :
  exists tail,
    extractable_bits k data = extractable_bits k (take i data) ++ tail.
Proof.
  exists (channel_bits k (0 + length (take i data)) (drop i data)).
  unfold extractable_bits. by rewrite <- channel_bits_app, take_drop.
Qed.

(** One [while] loop of the decoder, started on a state the walk has
    reached: it stops at a cursor [i'] holding the digits of the first
    [i'] bytes, as soon as [bound] digits are there or the buffer ends. *)
Lemma extract_loop_spec (bound : Z) (fuel : nat) (i : nat) :
  i <= length data -> length data - i <= fuel ->
  exists i',
    extract_loop data k bitMask bound fuel
                 (extractable_bits k (take i data)) i
    = (extractable_bits k (take i' data), i')
    /\ i <= i' <= length data
    /\ ((Z.of_nat (length (extractable_bits k (take i' data))) < bound)%Z ->
        i' = length data)
    /\ (i < i' ->
        (Z.of_nat (length (extractable_bits k (take (i' - 1) data)))
         < bound)%Z).
Proof.
  revert i. induction fuel as [|fuel IH]; intros i Hi Hfuel;
    cbn [extract_loop].
  - exists i. repeat split; lia.
  - destruct (Z.ltb_spec (Z.of_nat (length (extractable_bits k (take i data))))
                         bound) as [Hlt|Hge]; cbn [andb].
    2: { exists i. repeat split; lia. }
    destruct (Nat.ltb_spec i (length data)) as [Hin|Hout].
    2: { exists i. repeat split; lia. }
    destruct (lookup_lt_is_Some_2 data i Hin) as [d Hd].
    assert ((if negb ((i + 1) mod 4 =? 0)
             then extract_loop data k bitMask bound fuel
                    (extractable_bits k (take i data)
                     ++ padStart k false
                          (toString2 (and32 (default 0%Z (data !! i)) bitMask)))
                    (i + 1)
             else extract_loop data k bitMask bound fuel
                    (extractable_bits k (take i data)) (i + 1))
            = extract_loop data k bitMask bound fuel
                (extractable_bits k (take (S i) data)) (S i)) as ->.
    { rewrite (extractable_bits_snoc i d Hd), Hd. cbn [default].
      replace (i + 1) with (S i) by lia.
      destruct (S i mod 4 =? 0); cbn [negb]; [by rewrite app_nil_r|done]. }
    destruct (IH (S i)) as (i' & Hrun & Hrange & Hend & Hmin); [lia..|].
    exists i'. split; [exact Hrun|]. split; [lia|]. split; [exact Hend|].
    intros _. destruct (decide (i' = S i)) as [->|Hne].
    + by replace (S i - 1) with i by lia.
    + apply Hmin. lia.
Qed.

End Decoder.

(** ** The rational quantities, for a buffer of whole pixels *)

Section Rationals.

Context (data : list Z) (k n : nat) (Hlen : length data = 4 * n).

Lemma totalAvailableBits_pixels :
  (totalAvailableBits data k == inject_Z (Z.of_nat (n * 3 * k)))%Q.
Proof.
  unfold totalAvailableBits. rewrite Hlen.
  rewrite !Nat2Z.inj_mul, !inject_Z_mult. cbn [Z.of_nat]. field.
Qed.

Lemma totalAvailableBits_lt :
  num_lt (totalAvailableBits data k) 32 = (Z.of_nat (n * 3 * k) <? 32)%Z.
Proof.
  unfold num_lt. rewrite totalAvailableBits_pixels.
  unfold Qcompare, Z.ltb. cbn [Qnum Qden inject_Z].
  by rewrite !Z.mul_1_r.
Qed.

Lemma maxPossibleBytes_pixels :
  Qfloor ((totalAvailableBits data k - 32) / 8)%Q
  = ((Z.of_nat (n * 3 * k) - 32) / 8)%Z.
Proof.
  rewrite totalAvailableBits_pixels.
  assert (((inject_Z (Z.of_nat (n * 3 * k)) - 32) / 8
           == (Z.of_nat (n * 3 * k) - 32) # 8)%Q) as ->.
  { unfold Qeq. cbn. lia. }
  reflexivity.
Qed.

Lemma encode_capacity_pixels :
  encode_capacity data k = (Z.of_nat (n * 3 * k) / 8)%Z.
Proof.
  unfold encode_capacity.
  assert ((inject_Z (Z.of_nat (length data)) * 3 / 4
           * inject_Z (Z.of_nat k) / 8
           == Z.of_nat (n * 3 * k) # 8)%Q) as ->.
  { rewrite Hlen. unfold Qeq. cbn. lia. }
  reflexivity.
Qed.

End Rationals.

(** ** The decoder on a buffer of whole pixels *)

Section DecodeSpec.

Context (data : list Z) (k n : nat).
Context (Hdata : Forall is_byte data) (Hlen : length data = 4 * n).
Context (Hk : 1 <= k <= 4).

Local Abbreviation E := (extractable_bits k data).
Local Abbreviation maxBytes := ((Z.of_nat (n * 3 * k) - 32) / 8)%Z.

Lemma decode_walk_too_small :
  (Z.of_nat (n * 3 * k) < 32)%Z -> decode_walk data k = (0, Throw TooSmall).
Proof.
  intros Hsmall. unfold decode_walk.
  rewrite (totalAvailableBits_lt data k n Hlen).
  by rewrite (proj2 (Z.ltb_lt _ _) Hsmall).
Qed.

Lemma extractable_prefix_length (i : nat) :
  i <= length data ->
  length (extractable_bits k (take i data)) <= length E.
Proof.
  intros Hi. destruct (extractable_bits_take data k i) as [tail Htail].
  rewrite Htail, length_app. lia.
Qed.

(** The header phase: the loop stops at the first cursor [i1] at which 32
    digits have been read, that is just after the byte that gave the 32nd
    digit. *)
Lemma header_phase :
  (32 <= Z.of_nat (n * 3 * k))%Z ->
  exists i1,
    extract_loop data k (shl32 1 k - 1)%Z 32 (length data) [] 0
    = (extractable_bits k (take i1 data), i1)
    /\ i1 <= length data
    /\ length (extractable_bits k (take (i1 - 1) data)) < 32
       <= length (extractable_bits k (take i1 data))
    /\ substring (extractable_bits k (take i1 data)) 0 32 = take 32 E.
Proof.
  intros Hbig.
  pose proof (length_extractable_bits k n data Hk Hdata Hlen) as HE.
  destruct (extract_loop_spec data k 32 (length data) 0)
    as (i1 & Hrun & Hrange & Hend & Hmin); [lia..|].
  exists i1. split; [exact Hrun|]. split; [lia|].
  assert (32 <= length (extractable_bits k (take i1 data))) as Hhave.
  { destruct (Z.lt_ge_cases
                (Z.of_nat (length (extractable_bits k (take i1 data)))) 32)
      as [Hlt|Hge]; [|lia].
    rewrite (Hend Hlt), take_ge in Hlt by lia. lia. }
  split.
  - split; [|exact Hhave].
    destruct (decide (i1 = 0)) as [->|Hpos];
      [unfold extractable_bits in Hhave; rewrite take_0 in Hhave;
       cbn in Hhave; lia|].
    specialize (Hmin ltac:(lia)). lia.
  - rewrite substring_le, drop_0 by lia.
    destruct (extractable_bits_take data k i1) as [tail ->].
    rewrite take_app_le; [done|lia].
Qed.

Lemma header_value_some :
  (32 <= Z.of_nat (n * 3 * k))%Z ->
  header_value k data = Some (digits_value (take 32 E)).
Proof.
  intros Hbig.
  pose proof (length_extractable_bits k n data Hk Hdata Hlen) as HE.
  unfold header_value. rewrite substring_le, drop_0 by lia.
  apply parseInt2_value. intros Hnil.
  apply (f_equal length) in Hnil.
  rewrite length_take, HE in Hnil. cbn [length] in Hnil. lia.
Qed.

Lemma decode_walk_invalid (m : Z) :
  (32 <= Z.of_nat (n * 3 * k))%Z ->
  header_value k data = Some m ->
  (m <= 0 \/ m > maxBytes)%Z ->
  exists i,
    decode_walk data k = (i, Throw InvalidHeader)
    /\ length (extractable_bits k (take (i - 1) data)) < 32
       <= length (extractable_bits k (take i data)).
Proof.
  intros Hbig Hm Hbad. unfold decode_walk.
  rewrite (totalAvailableBits_lt data k n Hlen).
  rewrite (proj2 (Z.ltb_ge _ _) Hbig).
  destruct (header_phase Hbig) as (i1 & -> & _ & Hcur & ->).
  rewrite (header_value_some Hbig) in Hm. injection Hm as Hm.
  rewrite parseInt2_value.
  2: { intros Hnil. apply (f_equal length) in Hnil.
       rewrite length_take in Hnil.
       rewrite (length_extractable_bits k n data Hk Hdata Hlen) in Hnil.
       cbn [length] in Hnil. lia. }
  rewrite Hm, (maxPossibleBytes_pixels data k n Hlen).
  exists i1. split; [|exact Hcur].
  destruct (Z.leb_spec m 0); cbn [orb]; [done|].
  destruct (Z.gtb_spec m maxBytes); [done|lia].
Qed.

Lemma decode_walk_valid (m : Z) :
  (32 <= Z.of_nat (n * 3 * k))%Z ->
  header_value k data = Some m ->
  (0 < m <= maxBytes)%Z ->
  exists i,
    decode_walk data k
    = (i, Ok (binToString (take (Z.to_nat (m * 8)) (drop 32 E)))).
Proof.
  intros Hbig Hm Hgood. unfold decode_walk.
  rewrite (totalAvailableBits_lt data k n Hlen).
  rewrite (proj2 (Z.ltb_ge _ _) Hbig).
  pose proof (length_extractable_bits k n data Hk Hdata Hlen) as HE.
  destruct (header_phase Hbig) as (i1 & -> & Hi1 & Hcur & ->).
  rewrite (header_value_some Hbig) in Hm. injection Hm as Hm.
  rewrite parseInt2_value.
  2: { intros Hnil. apply (f_equal length) in Hnil.
       rewrite length_take, HE in Hnil. cbn [length] in Hnil. lia. }
  rewrite Hm, (maxPossibleBytes_pixels data k n Hlen).
  destruct (Z.leb_spec m 0); [lia|]. cbn [orb].
  destruct (Z.gtb_spec m maxBytes); [lia|].
  assert (32 + m * 8 <= Z.of_nat (n * 3 * k))%Z as Hfits.
  { pose proof (Z.mul_div_le (Z.of_nat (n * 3 * k) - 32) 8). lia. }
  destruct (extract_loop_spec data k (32 + m * 8)%Z (length data - i1) i1)
    as (i2 & -> & Hrange & Hend & _); [lia..|].
  assert (32 + m * 8 <= Z.of_nat (length (extractable_bits k (take i2 data))))%Z
    as Hhave.
  { destruct (Z.lt_ge_cases
                (Z.of_nat (length (extractable_bits k (take i2 data))))
                (32 + m * 8)) as [Hlt|Hge]; [|lia].
    rewrite (Hend Hlt), take_ge in Hlt by lia. lia. }
  destruct (Z.ltb_spec (Z.of_nat (length (extractable_bits k (take i2 data))))
                       (32 + m * 8)); [lia|].
  exists i2. do 3 f_equal.
  rewrite substring_le by lia.
  destruct (extractable_bits_take data k i2) as [tail Htail].
  rewrite Htail, drop_app_le, take_app_le by (rewrite ?length_drop; lia).
  f_equal. lia.
Qed.

End DecodeSpec.

(** ** Messages and their digits *)

Section Messages.

Lemma match_groups8_concat (chunks : list bits) (fuel : nat) :
  Forall (fun c => length c = 8) chunks ->
  length (concat chunks) <= fuel ->
  match_groups8 fuel (concat chunks) = chunks.
Proof.
  intros Hchunks. revert fuel.
  induction Hchunks as [|c cs Hc _ IH]; intros fuel Hfuel.
  - by destruct fuel.
  - cbn [concat] in *. rewrite length_app, Hc in Hfuel.
    destruct fuel as [|fuel]; [lia|]. cbn [match_groups8].
    destruct (c ++ concat cs) as [|b s] eqn:Hs.
    { apply (f_equal length) in Hs. rewrite length_app, Hc in Hs. done. }
    rewrite <- Hs, take_app_length', drop_app_length', IH by (done || lia).
    done.
Qed.

Lemma length_char_digits (c : N) :
  (c < 256)%N -> length (padStart 8 false (toString2 (Z.of_N c))) = 8.
Proof. intros Hc. apply length_padStart_toString2; lia. Qed.

Lemma length_stringToBin (message : list N) :
  Forall (fun c => (c < 256)%N) message ->
  length (stringToBin message) = 8 * length message.
Proof.
  unfold stringToBin. induction 1 as [|c message Hc _ IH]; [done|].
  cbn [map concat length]. rewrite length_app, IH, length_char_digits by done.
  lia.
Qed.

Lemma length_stringToBin_ge (message : list N) :
  8 * length message <= length (stringToBin message).
Proof.
  unfold stringToBin. induction message as [|c message IH]; [done|].
  cbn [map concat length]. rewrite length_app, length_padStart. lia.
Qed.

(** Single-byte characters come back from their digits. *)
Lemma binToString_stringToBin (message : list N) :
  Forall (fun c => (c < 256)%N) message ->
  binToString (stringToBin message) = message.
Proof.
  intros Hmsg. unfold binToString, match8, stringToBin.
  rewrite match_groups8_concat; [|
    by apply Forall_map; eapply Forall_impl;
       [exact Hmsg|intros c Hc; by apply length_char_digits] |done].
  rewrite map_map.
  induction Hmsg as [|c message Hc _ IH]; [done|].
  cbn [map]. rewrite IH. f_equal.
  rewrite parseInt2_padStart_toString2 by lia. cbn [fromCharCode].
  rewrite Z.mod_small by lia. apply N2Z.id.
Qed.

Lemma length_header (len : nat) :
  (Z.of_nat len < 2 ^ 32)%Z ->
  length (padStart 32 false (toString2 (Z.of_nat len))) = 32.
Proof. intros Hlen. apply length_padStart_toString2; [|lia]. split; [lia|done]. Qed.

Lemma length_fullBinary_ge (message : list N) :
  32 + 8 * length message <= length (fullBinary_of message).
Proof.
  unfold fullBinary_of. rewrite length_app, length_padStart.
  pose proof (length_stringToBin_ge message). lia.
Qed.

Lemma length_fullBinary (message : list N) :
  Forall (fun c => (c < 256)%N) message ->
  (Z.of_nat (length message) < 2 ^ 32)%Z ->
  length (fullBinary_of message) = 32 + 8 * length message.
Proof.
  intros Hmsg Hlen. unfold fullBinary_of.
  by rewrite length_app, length_header, length_stringToBin.
Qed.

End Messages.

(** ** The encoded buffer, read back *)

Lemma encoded_walk (data : list Z) (k : nat) (message : list N) :
  encode_loop (fullBinary_of message) k (shl32 255 k) (length data) 0 0 data
  = encode_walk (fullBinary_of message) k (shl32 255 k) 0 0 data.
Proof. rewrite encode_loop_walk by lia. by rewrite take_0, drop_0. Qed.

Lemma encoded_bytes (data : list Z) (k : nat) (message : list N) :
  1 <= k <= 4 -> Forall is_byte data ->
  Forall is_byte
    (encode_loop (fullBinary_of message) k (shl32 255 k) (length data) 0 0
                 data).
Proof. intros Hk Hdata. rewrite encoded_walk. by apply encode_walk_bytes. Qed.

Lemma length_encoded (data : list Z) (k : nat) (message : list N) :
  length
    (encode_loop (fullBinary_of message) k (shl32 255 k) (length data) 0 0
                 data)
  = length data.
Proof. by rewrite encoded_walk, length_encode_walk. Qed.

Section Codec.

Context (data : list Z) (k n : nat).
Context (Hdata : Forall is_byte data) (Hlen : length data = 4 * n).
Context (Hk : 1 <= k <= 4).
Context (message : list N).

Local Abbreviation F := (fullBinary_of message).
Local Abbreviation out :=
  (encode_loop (fullBinary_of message) k (shl32 255 k) (length data) 0 0 data).

Lemma length_encoded_pixels : length out = 4 * n.
Proof. by rewrite length_encoded. Qed.

Lemma encoded_bits :
  take (length F) (extractable_bits k out) = take (n * 3 * k) F.
Proof.
  rewrite encoded_walk. unfold extractable_bits.
  pose proof (encode_walk_bits F k Hk data 0 0 Hdata) as Hbits.
  rewrite Nat.sub_0_r, drop_0, Hlen, rgb_count_pixels in Hbits.
  rewrite Hbits. f_equal. lia.
Qed.

(** When the colour bytes can hold the header, the decoder parses the
    message length. *)
Lemma encoded_header :
  32 <= n * 3 * k -> (Z.of_nat (length message) < 2 ^ 32)%Z ->
  header_value k out = Some (Z.of_nat (length message)).
Proof.
  intros Hbig Hshort. unfold header_value.
  rewrite substring_le, drop_0 by lia.
  pose proof (length_fullBinary_ge message) as HF.
  replace (32 - 0) with (Nat.min 32 (length F)) by lia.
  rewrite <- take_take, encoded_bits, take_take.
  replace (Nat.min 32 (n * 3 * k)) with 32 by lia.
  unfold fullBinary_of. rewrite take_app_length' by by rewrite length_header.
  apply parseInt2_padStart_toString2. lia.
Qed.

(** When they can hold the whole of [F], the decoder reads [F] first. *)
Lemma encoded_frame :
  length F <= n * 3 * k ->
  exists tail, extractable_bits k out = F ++ tail.
Proof.
  intros Hfits. exists (drop (length F) (extractable_bits k out)).
  rewrite <- (take_drop (length F) (extractable_bits k out)) at 1.
  rewrite encoded_bits, take_ge by lia. done.
Qed.

End Codec.

Lemma length_match_groups8 (m fuel : nat) (s : bits) :
  length s = 8 * m -> length s <= fuel ->
  length (match_groups8 fuel s) = m.
Proof.
  revert fuel s. induction m as [|m IH]; intros fuel s Hs Hfuel.
  - destruct s; [|done]. by destruct fuel.
  - destruct fuel as [|fuel]; [lia|]. cbn [match_groups8].
    destruct s as [|b s]; [done|]. cbn [length]. f_equal.
    apply IH; rewrite length_drop; lia.
Qed.

Lemma length_binToString (m : nat) (s : bits) :
  length s = 8 * m -> length (binToString s) = m.
Proof.
  intros Hs. unfold binToString, match8.
  rewrite length_map. by apply length_match_groups8.
Qed.

(** Past its first test the decoder never reports a buffer too small. *)
Lemma decode_walk_not_too_small (data : list Z) (k : nat) :
  num_lt (totalAvailableBits data k) 32 = false ->
  snd (decode_walk data k) <> Throw TooSmall.
Proof.
  intros Hbig. unfold decode_walk. rewrite Hbig.
  destruct (extract_loop _ _ _ 32 _ _ _) as [bs1 i1].
  destruct (parseInt2 _) as [m|]; [|done].
  destruct (_ || _); [done|].
  destruct (extract_loop _ _ _ _ _ _ _) as [bs2 i2].
  by destruct (_ <? _)%Z.
Qed.

(** On a buffer of whole pixels a header that passes the validation always
    fits, so decode never reports a truncated message. *)
Lemma decode_never_truncated (data : list Z) (n k : nat) :
  Forall is_byte data -> length data = 4 * n -> 1 <= k <= 4 ->
  decodeLSB (Some data) k <> Throw Truncated.
Proof.
  intros Hdata Hlen Hk. cbn [decodeLSB].
  destruct (Z.lt_ge_cases (Z.of_nat (n * 3 * k)) 32) as [Hsmall|Hbig].
  { by rewrite (decode_walk_too_small data k n Hlen Hsmall). }
  pose proof (header_value_some data k n Hdata Hlen Hk Hbig) as Hheader.
  set (m := digits_value (take 32 (extractable_bits k data))) in *.
  destruct (Z.le_gt_cases m 0) as [Hle|Hpos].
  { destruct (decode_walk_invalid data k n Hdata Hlen Hk m Hbig Hheader)
      as (i & -> & _); [by left|done]. }
  destruct (Z.le_gt_cases m ((Z.of_nat (n * 3 * k) - 32) / 8)) as [Hfit|Hover].
  - destruct (decode_walk_valid data k n Hdata Hlen Hk m Hbig Hheader)
      as (i & ->); [lia|done].
  - destruct (decode_walk_invalid data k n Hdata Hlen Hk m Hbig Hheader)
      as (i & -> & _); [right; lia|done].
Qed.

(** * The claims *)

(** C1, as stated, fails: the empty payload satisfies the capacity bound on
    an all-zero 4x4 buffer with one bit per channel, and it does not come
    back, since the decoder rejects a length header of 0. *)
Lemma roundtrip_fails_on_empty_payload :
  ~ (forall (data : list Z) (n k : nat) (P : list N),
        Forall is_byte data -> length data = 4 * n -> 1 <= k <= 4 ->
        Forall (fun c => (c < 256)%N) P ->
        length P * 8 + 32 <= n * 3 * k ->
        exists r,
          encodeLSB (Some data) P k = Ok r
          /\ decodeLSB (Some (dataUrl r)) k = Ok P).
Proof.
  intros Hclaim.
  destruct (Hclaim (replicate 64 0%Z) 16 1 []) as (r & Henc & Hdec).
  - apply Forall_replicate. unfold is_byte. lia.
  - reflexivity.
  - lia.
  - constructor.
  - cbn. lia.
  - vm_compute in Henc. injection Henc as <-.
    vm_compute in Hdec. discriminate.
Qed.

(** C1 (amended): for every pixel buffer of [n] whole pixels, every [k] in
    [1,4] and every non-empty payload [P] of single-byte characters, shorter
    than 2^32, with [len(P)*8 + 32 <= n*3*k], decoding the buffer that
    encode produces from [P] returns exactly [P]. *)
Theorem roundtrip (data : list Z) (n k : nat) (P : list N) :
  Forall is_byte data -> length data = 4 * n -> 1 <= k <= 4 ->
  P <> [] ->
  Forall (fun c => (c < 256)%N) P ->
  (Z.of_nat (length P) < 2 ^ 32)%Z ->
  length P * 8 + 32 <= n * 3 * k ->
  exists r,
    encodeLSB (Some data) P k = Ok r
    /\ decodeLSB (Some (dataUrl r)) k = Ok P.
Proof.
  intros Hdata Hlen Hk Hne Hbytes Hshort Hfits.
  eexists. split; [reflexivity|]. cbn [dataUrl decodeLSB].
  pose proof (encoded_bytes data k P Hk Hdata) as Hout.
  pose proof (length_encoded_pixels data k n Hlen P) as Hlout.
  pose proof (length_fullBinary P Hbytes Hshort) as HF.
  assert (length P <> 0) as Hpos by (destruct P; [done|cbn; lia]).
  destruct (decode_walk_valid _ k n Hout Hlout Hk (Z.of_nat (length P)))
    as (i & ->).
  - lia.
  - apply (encoded_header data k n Hdata Hlen Hk); [lia|done].
  - split; [lia|]. apply Z.div_le_lower_bound; lia.
  - cbn [snd]. f_equal.
    destruct (encoded_frame data k n Hdata Hlen Hk P) as [tail ->]; [lia|].
    unfold fullBinary_of at 1. rewrite <- app_assoc.
    rewrite drop_app_length' by by rewrite length_header.
    rewrite take_app_length'.
    + by apply binToString_stringToBin.
    + rewrite length_stringToBin by done. lia.
Qed.

Lemma roundtrip_witness :
  exists r,
    encodeLSB (Some (replicate 64 0%Z)) [65%N] 1 = Ok r
    /\ decodeLSB (Some (dataUrl r)) 1 = Ok [65%N].
Proof.
  apply (roundtrip (replicate 64 0%Z) 16 1 [65%N]).
  - apply Forall_replicate. unfold is_byte. lia.
  - reflexivity.
  - lia.
  - discriminate.
  - repeat constructor.
  - reflexivity.
  - cbn. lia.
Defined.

(** C2: the euro sign (code unit 8364) is not truncated to 8 digits: it is
    written on its 14 binary digits, so the bit-sequence of the one
    character message has 46 digits and not 32 + 8 * 1 = 40, and an all-zero
    4x4 buffer encoded with it decodes to the character 130. *)
Theorem wide_character_not_truncated :
  stringToBin [8364%N]
  = [true; false; false; false; false; false; true; false;
     true; false; true; true; false; false]
  /\ length (fullBinary_of [8364%N]) = 46
  /\ 46 <> 32 + 8 * length [8364%N]
  /\ exists r,
       encodeLSB (Some (replicate 64 0%Z)) [8364%N] 1 = Ok r
       /\ decodeLSB (Some (dataUrl r)) 1 = Ok [130%N].
Proof.
  split; [reflexivity|]. split; [reflexivity|]. split; [cbn; lia|].
  eexists. split; [reflexivity|]. vm_compute. reflexivity.
Qed.

(** C3: for integer dimensions the capacity the application shows is
    [max(0, floor(width * height * 3 * k / 8) - 4)], where the width and the
    height are those of the image times the scale; for a 20x20 image, or a
    10x10 image scaled by 2, with one bit per channel it is 146. *)
Theorem app_capacity_formula :
  (forall width height k : nat,
      App.capacity width height 1 k
      = Z.max 0 (Z.of_nat (width * height * 3 * k) / 8 - 4))
  /\ (forall width height scale k : nat,
         App.capacity width height (inject_Z (Z.of_nat scale)) k
         = Z.max 0
             (Z.of_nat ((width * scale) * (height * scale) * 3 * k) / 8 - 4))
  /\ App.capacity 20 20 1 1 = 146%Z
  /\ App.capacity 10 10 2 1 = 146%Z.
Proof.
  assert (forall width height scale k : nat,
             App.capacity width height (inject_Z (Z.of_nat scale)) k
             = Z.max 0
                 (Z.of_nat ((width * scale) * (height * scale) * 3 * k) / 8
                  - 4)) as Hscaled.
  { intros width height scale k. unfold App.capacity.
    assert ((inject_Z (Z.of_nat width) * inject_Z (Z.of_nat scale)
             * (inject_Z (Z.of_nat height) * inject_Z (Z.of_nat scale))
             * 3 * inject_Z (Z.of_nat k) / 8
             == Z.of_nat ((width * scale) * (height * scale) * 3 * k) # 8)%Q)
      as ->; [|reflexivity].
    unfold Qeq. cbn. lia. }
  split; [|split; [exact Hscaled|split; reflexivity]].
  intros width height k.
  change 1%Q with (inject_Z (Z.of_nat 1)). rewrite Hscaled.
  by rewrite !Nat.mul_1_r.
Qed.

(** C4: on an all-zero 4x4 buffer with one bit per channel, the capacity
    that encode returns is 6 = floor(48 / 8), where the header-adjusted
    capacity is max(0, floor(48 / 8) - 4) = 2. *)
Theorem encode_capacity_not_header_adjusted :
  exists r,
    encodeLSB (Some (replicate 64 0%Z)) [65%N] 1 = Ok r
    /\ capacity r = 6%Z
    /\ Z.max 0 (Z.of_nat (16 * 3 * 1) / 8 - 4) = 2%Z
    /\ App.capacity 4 4 1 1 = 2%Z.
Proof. eexists. split; [reflexivity|]. repeat split. Qed.

(** What encode returns as capacity, on any buffer of [n] whole pixels:
    the bytes of the colour bits, the header not subtracted, whatever the
    message. *)
Lemma encode_capacity_value (data : list Z) (n k : nat) (P : list N) :
  length data = 4 * n ->
  exists r,
    encodeLSB (Some data) P k = Ok r
    /\ capacity r = (Z.of_nat (n * 3 * k) / 8)%Z.
Proof.
  intros Hlen. eexists. split; [reflexivity|].
  by apply encode_capacity_pixels.
Qed.

(** C5: encode changes at most the low [k] bits of the colour bytes that
    carry the frame: the buffer keeps its length; a byte at an alpha index
    is unchanged; every byte keeps its bits above the low [k]; and a byte is
    unchanged when the colour bytes before it already hold all the digits of
    header and payload. *)
Theorem encode_frame_effect (data : list Z) (k : nat) (P : list N) :
  Forall is_byte data -> 1 <= k <= 4 ->
  exists r,
    encodeLSB (Some data) P k = Ok r
    /\ length (dataUrl r) = length data
    /\ forall (i : nat) (d : Z),
         data !! i = Some d ->
         exists d',
           dataUrl r !! i = Some d'
           /\ ((i + 1) mod 4 = 0 -> d' = d)
           /\ Z.land d' (Z.lnot (2 ^ Z.of_nat k - 1))
              = Z.land d (Z.lnot (2 ^ Z.of_nat k - 1))
           /\ (length (fullBinary_of P) <= k * rgb_count 0 i -> d' = d).
Proof.
  intros Hdata Hk. eexists. split; [reflexivity|]. cbn [dataUrl].
  split; [apply length_encoded|].
  intros i d Hd. rewrite encoded_walk.
  destruct (encode_walk_frame (fullBinary_of P) k Hk data 0 0 i d Hdata Hd)
    as (d' & Hl & Hhigh & Halpha & Hpast).
  exists d'. repeat split; done.
Qed.

Lemma encode_frame_effect_witness :
  exists r,
    encodeLSB (Some (replicate 64 0%Z)) [65%N] 1 = Ok r
    /\ length (dataUrl r) = length (replicate 64 0%Z)
    /\ forall (i : nat) (d : Z),
         replicate 64 0%Z !! i = Some d ->
         exists d',
           dataUrl r !! i = Some d'
           /\ ((i + 1) mod 4 = 0 -> d' = d)
           /\ Z.land d' (Z.lnot (2 ^ Z.of_nat 1 - 1))
              = Z.land d (Z.lnot (2 ^ Z.of_nat 1 - 1))
           /\ (length (fullBinary_of [65%N]) <= 1 * rgb_count 0 i -> d' = d).
Proof.
  apply (encode_frame_effect (replicate 64 0%Z) 1 [65%N]).
  - apply Forall_replicate. unfold is_byte. lia.
  - lia.
Defined.

(** C6: on a buffer of [n] whole pixels, decode throws TooSmall exactly
    when [n * 3 * k < 32], and it does so with its cursor at 0: before any
    byte is visited and any header parsed. *)
Theorem decode_too_small (data : list Z) (n k : nat) :
  length data = 4 * n ->
  (decodeLSB (Some data) k = Throw TooSmall <-> n * 3 * k < 32)
  /\ (n * 3 * k < 32 -> decode_walk data k = (0, Throw TooSmall)).
Proof.
  intros Hlen. cbn [decodeLSB].
  assert (n * 3 * k < 32 -> decode_walk data k = (0, Throw TooSmall)) as Hsmall.
  { intros Hlt. apply (decode_walk_too_small data k n Hlen). lia. }
  split; [|exact Hsmall]. split.
  - intros Hthrow. destruct (decide (n * 3 * k < 32)) as [|Hbig]; [done|].
    exfalso. revert Hthrow. apply decode_walk_not_too_small.
    rewrite (totalAvailableBits_lt data k n Hlen). apply Z.ltb_ge. lia.
  - intros Hlt. by rewrite (Hsmall Hlt).
Qed.

(** A buffer of 8 pixels read with one bit per channel provides 24 bits. *)
Lemma decode_too_small_witness :
  (decodeLSB (Some (replicate 32 0%Z)) 1 = Throw TooSmall <-> 8 * 3 * 1 < 32)
  /\ (8 * 3 * 1 < 32 ->
      decode_walk (replicate 32 0%Z) 1 = (0, Throw TooSmall)).
Proof. apply (decode_too_small (replicate 32 0%Z) 8 1). reflexivity. Defined.

(** C7: on a buffer of [n] whole pixels that can hold the header, decode
    throws InvalidHeader exactly when the first 32 digits, parsed, are not
    a number, or are at most 0, or exceed [floor((n*3*k - 32) / 8)]; and it
    then stops with its cursor where the header phase left it, just after
    the byte that gave the 32nd digit: no further byte has been visited. *)
Theorem decode_invalid_header (data : list Z) (n k : nat) :
  Forall is_byte data -> length data = 4 * n -> 1 <= k <= 4 ->
  32 <= n * 3 * k ->
  (decodeLSB (Some data) k = Throw InvalidHeader
   <-> header_invalid (header_value k data)
                      ((Z.of_nat (n * 3 * k) - 32) / 8))
  /\ (header_invalid (header_value k data)
                     ((Z.of_nat (n * 3 * k) - 32) / 8) ->
      exists i,
        decode_walk data k = (i, Throw InvalidHeader)
        /\ length (extractable_bits k (take (i - 1) data)) < 32
           <= length (extractable_bits k (take i data))).
Proof.
  intros Hdata Hlen Hk Hbig. cbn [decodeLSB].
  assert (32 <= Z.of_nat (n * 3 * k))%Z as HbigZ by lia.
  pose proof (header_value_some data k n Hdata Hlen Hk HbigZ) as Hheader.
  set (m := digits_value (take 32 (extractable_bits k data))) in *.
  rewrite Hheader. cbn [header_invalid].
  assert ((m <= 0 \/ m > (Z.of_nat (n * 3 * k) - 32) / 8)%Z ->
          exists i,
            decode_walk data k = (i, Throw InvalidHeader)
            /\ length (extractable_bits k (take (i - 1) data)) < 32
               <= length (extractable_bits k (take i data)))
    as Hinvalid
    by (intros Hbad; by apply (decode_walk_invalid data k n Hdata Hlen Hk m)).
  split; [|exact Hinvalid]. split.
  - intros Hthrow.
    destruct (Z.le_gt_cases m 0) as [|Hpos]; [by left|].
    destruct (Z.le_gt_cases m ((Z.of_nat (n * 3 * k) - 32) / 8)) as [Hle|];
      [|right; lia].
    destruct (decode_walk_valid data k n Hdata Hlen Hk m HbigZ Hheader)
      as (i & Hok); [lia|].
    rewrite Hok in Hthrow. discriminate.
  - intros Hbad. destruct (Hinvalid Hbad) as (i & -> & _). done.
Qed.

(** An all-zero buffer carries the header 0. *)
Lemma decode_invalid_header_witness :
  (decodeLSB (Some (replicate 64 0%Z)) 1 = Throw InvalidHeader
   <-> header_invalid (header_value 1 (replicate 64 0%Z))
                      ((Z.of_nat (16 * 3 * 1) - 32) / 8))
  /\ (header_invalid (header_value 1 (replicate 64 0%Z))
                     ((Z.of_nat (16 * 3 * 1) - 32) / 8) ->
      exists i,
        decode_walk (replicate 64 0%Z) 1 = (i, Throw InvalidHeader)
        /\ length (extractable_bits 1 (take (i - 1) (replicate 64 0%Z))) < 32
           <= length (extractable_bits 1 (take i (replicate 64 0%Z)))).
Proof.
  apply (decode_invalid_header (replicate 64 0%Z) 16 1).
  - apply Forall_replicate. unfold is_byte. lia.
  - reflexivity.
  - lia.
  - cbn. lia.
Defined.

(** The digits of a string are the bits of its value. *)
Lemma digits_testbit (s : bits) (b : nat) :
  b < length s ->
  s !! b = Some (Z.testbit (digits_value s) (Z.of_nat (length s - 1 - b))).
Proof.
  revert b. induction s as [|x s IH]; intros b Hb; [cbn in Hb; lia|].
  cbn [length] in *. rewrite digits_value_cons.
  pose proof (digits_value_bound s) as Hv.
  assert (0 < 2 ^ Z.of_nat (length s))%Z as Hpow
    by (apply Z.pow_pos_nonneg; lia).
  destruct b as [|b].
  - change ((x :: s) !! 0) with (Some x).
    f_equal. replace (S (length s) - 1 - 0) with (length s) by lia.
    apply Z.b2z_inj. rewrite Z.testbit_spec' by lia.
    rewrite Z.div_add_l, Z.div_small by lia.
    destruct x; reflexivity.
  - change ((x :: s) !! S b) with (s !! b).
    rewrite (IH b) by lia. f_equal.
    replace (S (length s) - 1 - S b) with (length s - 1 - b) by lia.
    rewrite <- (Z.mod_pow2_bits_low (_ + _) (Z.of_nat (length s))) by lia.
    by rewrite Z.add_comm, Z.mod_add, Z.mod_small by lia.
Qed.

Lemma match_groups8_lookup (m fuel j : nat) (s : bits) :
  length s = 8 * m -> length s <= fuel -> j < m ->
  match_groups8 fuel s !! j = Some (take 8 (drop (8 * j) s)).
Proof.
  revert fuel j s. induction m as [|m IH]; intros fuel j s Hs Hfuel Hj;
    [lia|].
  destruct fuel as [|fuel]; [lia|]. cbn [match_groups8].
  destruct s as [|x s'] eqn:Es; [done|]. rewrite <- Es in *.
  destruct j as [|j].
  - by rewrite drop_0.
  - change ((take 8 s :: match_groups8 fuel (drop 8 s)) !! S j)
      with (match_groups8 fuel (drop 8 s) !! j).
    rewrite (IH fuel j) by (rewrite ?length_drop; lia).
    rewrite drop_drop. do 3 f_equal. lia.
Qed.

Lemma lookup_map {A B : Type} (f : A -> B) (l : list A) (i : nat) :
  map f l !! i = option_map f (l !! i).
Proof.
  revert i. induction l as [|a l IH]; intros [|i]; cbn; try done.
Qed.

(** The characters that [binToString] makes of a whole number of groups. *)
Lemma binToString_lookup (m j : nat) (s : bits) (c : N) :
  length s = 8 * m ->
  binToString s !! j = Some c ->
  (c < 256)%N
  /\ forall b : nat,
       b < 8 ->
       s !! (8 * j + b) = Some (Z.testbit (Z.of_N c) (Z.of_nat (7 - b))).
Proof.
  intros Hs Hc.
  assert (j < m) as Hj.
  { rewrite <- (length_binToString m s Hs). by eapply lookup_lt_Some. }
  unfold binToString, match8 in Hc.
  rewrite lookup_map, (match_groups8_lookup m) in Hc by (done || lia).
  set (g := take 8 (drop (8 * j) s)) in *.
  cbn [option_map] in Hc. injection Hc as <-.
  assert (length g = 8) as Hg
    by (unfold g; rewrite length_take, length_drop; lia).
  assert (g <> []) as Hne by (intros E; rewrite E in Hg; done).
  rewrite (parseInt2_value g Hne). cbn [fromCharCode].
  pose proof (digits_value_bound g) as Hb. rewrite Hg in Hb.
  change (2 ^ Z.of_nat 8)%Z with 256%Z in Hb.
  rewrite Z.mod_small by lia.
  split; [lia|].
  intros b Hlt. rewrite Z2N.id by lia.
  pose proof (digits_testbit g b ltac:(lia)) as Hbit.
  rewrite Hg in Hbit. replace (8 - 1 - b) with (7 - b) in Hbit by lia.
  rewrite <- Hbit. unfold g.
  by rewrite lookup_take_lt, lookup_drop by lia.
Qed.

(** [decode_walk] is its header phase followed by [payload_phase]. *)
Lemma decode_walk_payload_phase (data : list Z) (k : nat) :
  decode_walk data k
  = let total := totalAvailableBits data k in
    if num_lt total 32 then (0, Throw TooSmall)
    else
      let '(binaryString, i) :=
        extract_loop data k (shl32 1 k - 1)%Z 32 (length data) [] 0 in
      match parseInt2 (substring binaryString 0 32) with
      | None => (i, Throw InvalidHeader)
      | Some messageLength =>
        if (messageLength <=? 0)%Z
           || (messageLength >? Qfloor ((total - 32) / 8)%Q)%Z
        then (i, Throw InvalidHeader)
        else payload_phase data k binaryString i messageLength
      end.
Proof. reflexivity. Qed.

(** The payload phase, run for any length [m] from a state of the walk:
    it only fails when the colour bytes hold fewer than [32 + m * 8]
    digits, and otherwise cuts the digits [32, 32 + m * 8). *)
Lemma payload_phase_run (data : list Z) (k i1 : nat) (m : Z) :
  i1 <= length data -> (0 <= m)%Z ->
  ((Z.of_nat (length (extractable_bits k data)) < 32 + m * 8)%Z ->
   snd (payload_phase data k (extractable_bits k (take i1 data)) i1 m)
   = Throw Truncated)
  /\ ((32 + m * 8 <= Z.of_nat (length (extractable_bits k data)))%Z ->
      snd (payload_phase data k (extractable_bits k (take i1 data)) i1 m)
      = Ok (binToString
              (take (Z.to_nat (m * 8))
                    (drop 32 (extractable_bits k data))))).
Proof.
  intros Hi1 Hm. unfold payload_phase.
  destruct (extract_loop_spec data k (32 + m * 8)%Z (length data - i1) i1)
    as (i2 & -> & Hrange & Hend & _); [lia..|].
  destruct (extractable_bits_take data k i2) as [tail Htail].
  pose proof (f_equal length Htail) as Hlen. rewrite length_app in Hlen.
  destruct (Z.ltb_spec (Z.of_nat (length (extractable_bits k (take i2 data))))
                       (32 + m * 8)) as [Hlt|Hge]; cbn [snd].
  - split; [done|]. intros Hfits.
    rewrite (Hend Hlt), take_ge in Hlt by lia. lia.
  - split; [lia|]. intros _. do 2 f_equal.
    rewrite substring_le by lia.
    rewrite Htail, drop_app_le, take_app_le by (rewrite ?length_drop; lia).
    f_equal. lia.
Qed.

(** C8: on a buffer of [n] whole pixels whose header [m] passes the
    validation, decode is the payload phase run for [m]; that phase, for
    any length [m'] whether or not the validation lets it through, throws
    Truncated exactly when fewer than [32 + m' * 8] digits can be read from
    the colour bytes, and otherwise returns [m'] characters, each of them
    the eight digits at its place from digit 32 on, most significant first;
    so decode throws Truncated exactly when fewer than [32 + m * 8] digits
    can be read, which under the validation is never, and it returns the
    [m] characters of the digits [32, 32 + m * 8). *)
Theorem decode_truncated_or_payload (data : list Z) (n k : nat) (m : Z) :
  Forall is_byte data -> length data = 4 * n -> 1 <= k <= 4 ->
  32 <= n * 3 * k ->
  header_value k data = Some m ->
  (0 < m <= (Z.of_nat (n * 3 * k) - 32) / 8)%Z ->
  exists (binaryString : bits) (i : nat),
    extract_loop data k (shl32 1 k - 1)%Z 32 (length data) [] 0
    = (binaryString, i)
    /\ (forall m' : Z,
           (0 < m')%Z ->
           (snd (payload_phase data k binaryString i m') = Throw Truncated
            <-> (Z.of_nat (length (extractable_bits k data)) < 32 + m' * 8)%Z)
           /\ ((32 + m' * 8 <= Z.of_nat (length (extractable_bits k data)))%Z ->
               exists payload,
                 snd (payload_phase data k binaryString i m') = Ok payload
                 /\ Z.of_nat (length payload) = m'
                 /\ payload_of_digits (extractable_bits k data) payload))
    /\ decodeLSB (Some data) k = snd (payload_phase data k binaryString i m)
    /\ (decodeLSB (Some data) k = Throw Truncated
        <-> (Z.of_nat (length (extractable_bits k data)) < 32 + m * 8)%Z)
    /\ (32 + m * 8 <= Z.of_nat (length (extractable_bits k data)))%Z
    /\ exists payload,
         decodeLSB (Some data) k = Ok payload
         /\ Z.of_nat (length payload) = m
         /\ payload_of_digits (extractable_bits k data) payload.
Proof.
  intros Hdata Hlen Hk Hbig Hheader Hvalid.
  assert (32 <= Z.of_nat (n * 3 * k))%Z as HbigZ by lia.
  pose proof (length_extractable_bits k n data Hk Hdata Hlen) as HE.
  assert (32 + m * 8 <= Z.of_nat (n * 3 * k))%Z as Hfits.
  { pose proof (Z.mul_div_le (Z.of_nat (n * 3 * k) - 32) 8). lia. }
  destruct (header_phase data k n Hdata Hlen Hk HbigZ)
    as (i1 & Hrun & Hi1 & _ & _).
  assert (forall m' : Z,
             (0 < m')%Z ->
             (32 + m' * 8 <= Z.of_nat (length (extractable_bits k data)))%Z ->
             exists payload,
               snd (payload_phase data k (extractable_bits k (take i1 data))
                                  i1 m') = Ok payload
               /\ Z.of_nat (length payload) = m'
               /\ payload_of_digits (extractable_bits k data) payload)
    as Hpayload.
  { intros m' Hm' Hfits'.
    destruct (payload_phase_run data k i1 m' Hi1 ltac:(lia)) as [_ Hok].
    eexists. split; [exact (Hok Hfits')|].
    assert (length (take (Z.to_nat (m' * 8))
                         (drop 32 (extractable_bits k data)))
            = 8 * Z.to_nat m') as Hcut
      by (rewrite length_take, length_drop; lia).
    split; [rewrite (length_binToString _ _ Hcut); lia|].
    intros j c Hc.
    destruct (binToString_lookup _ j _ c Hcut Hc) as [Hbyte Hbits].
    split; [exact Hbyte|]. intros b Hb.
    rewrite <- (Hbits b Hb).
    assert (j < Z.to_nat m') as Hj.
    { rewrite <- (length_binToString _ _ Hcut). by eapply lookup_lt_Some. }
    rewrite lookup_take_lt, lookup_drop by lia. f_equal; lia. }
  assert (decodeLSB (Some data) k
          = snd (payload_phase data k (extractable_bits k (take i1 data))
                               i1 m)) as Hdecode.
  { cbn [decodeLSB].
    destruct (decode_walk_valid data k n Hdata Hlen Hk m HbigZ Hheader Hvalid)
      as (i & ->). cbn [snd].
    destruct (payload_phase_run data k i1 m Hi1 ltac:(lia)) as [_ Hok].
    rewrite Hok; [done|lia]. }
  exists (extractable_bits k (take i1 data)), i1.
  split; [exact Hrun|]. split; [|split; [exact Hdecode|]].
  - intros m' Hm'. split; [|by apply Hpayload].
    destruct (payload_phase_run data k i1 m' Hi1 ltac:(lia)) as [Hcut Hok].
    split; [|exact Hcut].
    intros Hthrow.
    destruct (Z.lt_ge_cases (Z.of_nat (length (extractable_bits k data)))
                            (32 + m' * 8)) as [|Hge]; [done|].
    rewrite Hok in Hthrow by lia. discriminate.
  - rewrite Hdecode.
    destruct (payload_phase_run data k i1 m Hi1 ltac:(lia)) as [Hcut Hok].
    split; [|split; [lia|]].
    + split; [|exact Hcut]. intros Hthrow.
      rewrite Hok in Hthrow by lia. discriminate.
    + apply Hpayload; lia.
Qed.

(** On the buffer that encode makes of an all-zero 4x4 buffer and "A",
    whose header 1 passes the validation. *)
Lemma decode_truncated_or_payload_witness :
  let data :=
    encode_loop (fullBinary_of [65%N]) 1 (shl32 255 1) 64 0 0
                (replicate 64 0%Z) in
  exists (binaryString : bits) (i : nat),
    extract_loop data 1 (shl32 1 1 - 1)%Z 32 (length data) [] 0
    = (binaryString, i)
    /\ (forall m' : Z,
           (0 < m')%Z ->
           (snd (payload_phase data 1 binaryString i m') = Throw Truncated
            <-> (Z.of_nat (length (extractable_bits 1 data)) < 32 + m' * 8)%Z)
           /\ ((32 + m' * 8 <= Z.of_nat (length (extractable_bits 1 data)))%Z ->
               exists payload,
                 snd (payload_phase data 1 binaryString i m') = Ok payload
                 /\ Z.of_nat (length payload) = m'
                 /\ payload_of_digits (extractable_bits 1 data) payload))
    /\ decodeLSB (Some data) 1 = snd (payload_phase data 1 binaryString i 1)
    /\ (decodeLSB (Some data) 1 = Throw Truncated
        <-> (Z.of_nat (length (extractable_bits 1 data)) < 32 + 1 * 8)%Z)
    /\ (32 + 1 * 8 <= Z.of_nat (length (extractable_bits 1 data)))%Z
    /\ exists payload,
         decodeLSB (Some data) 1 = Ok payload
         /\ Z.of_nat (length payload) = 1%Z
         /\ payload_of_digits (extractable_bits 1 data) payload.
Proof.
  intros data. apply (decode_truncated_or_payload data 16 1 1).
  - vm_compute. repeat constructor; discriminate.
  - reflexivity.
  - lia.
  - cbn. lia.
  - vm_compute. reflexivity.
  - vm_compute. split; [reflexivity|discriminate].
Defined.

(** The payload phase does throw: run for 3 characters, which the
    validation would not let through, from the state the header phase
    leaves on that same buffer of 48 digits. *)
Example payload_phase_truncated :
  let data :=
    encode_loop (fullBinary_of [65%N]) 1 (shl32 255 1) 64 0 0
                (replicate 64 0%Z) in
  let '(binaryString, i) :=
    extract_loop data 1 (shl32 1 1 - 1)%Z 32 (length data) [] 0 in
  snd (payload_phase data 1 binaryString i 3) = Throw Truncated
  /\ (Z.of_nat (length (extractable_bits 1 data)) < 32 + 3 * 8)%Z.
Proof. vm_compute. split; reflexivity. Qed.

(** Decoding a buffer whose header is invalid. *)
Lemma decode_throws_on_invalid_header (data : list Z) (n k : nat) (m : Z) :
  Forall is_byte data -> length data = 4 * n -> 1 <= k <= 4 ->
  32 <= n * 3 * k ->
  header_value k data = Some m ->
  (m <= 0 \/ m > (Z.of_nat (n * 3 * k) - 32) / 8)%Z ->
  decodeLSB (Some data) k = Throw InvalidHeader.
Proof.
  intros Hdata Hlen Hk Hbig Hheader Hbad. cbn [decodeLSB].
  destruct (decode_walk_invalid data k n Hdata Hlen Hk m) as (i & -> & _);
    [lia|done..].
Qed.

(** C9: encode never throws on a buffer and keeps its length; when the
    payload is larger than the capacity of a buffer of [n] whole pixels,
    the digits left in the colour bytes are the first [n * 3 * k] digits of
    header and payload, and decoding throws InvalidHeader as soon as the
    buffer can hold the header.  In particular every 10-character payload
    encoded with one bit per channel into the all-zero 4x4 buffer decodes
    to InvalidHeader. *)
Theorem encode_overflow :
  (forall (data : list Z) (P : list N) (k : nat),
      exists r,
        encodeLSB (Some data) P k = Ok r
        /\ length (dataUrl r) = length data)
  /\ (forall (data : list Z) (n k : nat) (P : list N),
         Forall is_byte data -> length data = 4 * n -> 1 <= k <= 4 ->
         n * 3 * k < 32 + 8 * length P ->
         exists r,
           encodeLSB (Some data) P k = Ok r
           /\ extractable_bits k (dataUrl r)
              = take (n * 3 * k) (fullBinary_of P)
           /\ (32 <= n * 3 * k -> (Z.of_nat (length P) < 2 ^ 32)%Z ->
               decodeLSB (Some (dataUrl r)) k = Throw InvalidHeader))
  /\ (forall P : list N,
         length P = 10 ->
         exists r,
           encodeLSB (Some (replicate 64 0%Z)) P 1 = Ok r
           /\ decodeLSB (Some (dataUrl r)) 1 = Throw InvalidHeader).
Proof.
  assert (forall (data : list Z) (n k : nat) (P : list N),
             Forall is_byte data -> length data = 4 * n -> 1 <= k <= 4 ->
             n * 3 * k < 32 + 8 * length P ->
             exists r,
               encodeLSB (Some data) P k = Ok r
               /\ extractable_bits k (dataUrl r)
                  = take (n * 3 * k) (fullBinary_of P)
               /\ (32 <= n * 3 * k -> (Z.of_nat (length P) < 2 ^ 32)%Z ->
                   decodeLSB (Some (dataUrl r)) k = Throw InvalidHeader))
    as Hover.
  { intros data n k P Hdata Hlen Hk Hlarge.
    eexists. split; [reflexivity|]. cbn [dataUrl].
    pose proof (encoded_bytes data k P Hk Hdata) as Hout.
    pose proof (length_encoded_pixels data k n Hlen P) as Hlout.
    pose proof (length_extractable_bits k n _ Hk Hout Hlout) as HE.
    pose proof (length_fullBinary_ge P) as HF.
    split.
    - rewrite <- (encoded_bits data k n Hdata Hlen Hk P).
      by rewrite take_ge by lia.
    - intros Hbig Hshort.
      apply (decode_throws_on_invalid_header _ n k (Z.of_nat (length P)) Hout Hlout Hk Hbig).
      + by apply (encoded_header data k n).
      + right. apply Z.lt_gt, Z.div_lt_upper_bound; lia. }
  split; [|split; [exact Hover|]].
  - intros data P k. eexists. split; [reflexivity|]. apply length_encoded.
  - intros P HP.
    destruct (Hover (replicate 64 0%Z) 16 1 P) as (r & Henc & _ & Hdec).
    + apply Forall_replicate. unfold is_byte. lia.
    + reflexivity.
    + lia.
    + lia.
    + exists r. split; [exact Henc|]. apply Hdec; [cbn; lia|]. rewrite HP. done.
Qed.

Lemma encode_overflow_witness :
  exists r,
    encodeLSB (Some (replicate 64 0%Z))
              [48; 49; 50; 51; 52; 53; 54; 55; 56; 57]%N 1 = Ok r
    /\ decodeLSB (Some (dataUrl r)) 1 = Throw InvalidHeader.
Proof.
  apply (proj2 (proj2 encode_overflow)
           [48; 49; 50; 51; 52; 53; 54; 55; 56; 57]%N).
  reflexivity.
Defined.

(** C10: on a buffer of [n] whole pixels that can hold the header, encode
    accepts the empty payload and leaves 32 zero digits as header, and
    decode then always throws InvalidHeader. *)
Theorem empty_payload_not_recoverable (data : list Z) (n k : nat) :
  Forall is_byte data -> length data = 4 * n -> 1 <= k <= 4 ->
  32 <= n * 3 * k ->
  exists r,
    encodeLSB (Some data) [] k = Ok r
    /\ take 32 (extractable_bits k (dataUrl r)) = replicate 32 false
    /\ header_value k (dataUrl r) = Some 0%Z
    /\ decodeLSB (Some (dataUrl r)) k = Throw InvalidHeader.
Proof.
  intros Hdata Hlen Hk Hbig.
  eexists. split; [reflexivity|]. cbn [dataUrl].
  pose proof (encoded_bytes data k [] Hk Hdata) as Hout.
  pose proof (length_encoded_pixels data k n Hlen []) as Hlout.
  pose proof (encoded_header data k n Hdata Hlen Hk [] Hbig) as Hheader.
  specialize (Hheader ltac:(done)). cbn [length Z.of_nat] in Hheader.
  split; [|split; [exact Hheader|]].
  - pose proof (encoded_bits data k n Hdata Hlen Hk []) as Hbits.
    change (length (fullBinary_of [])) with 32 in Hbits.
    rewrite Hbits, take_ge; [reflexivity|].
    change (length (fullBinary_of [])) with 32. lia.
  - apply (decode_throws_on_invalid_header _ n k 0%Z Hout Hlout Hk Hbig Hheader). by left.
Qed.

Lemma empty_payload_not_recoverable_witness :
  exists r,
    encodeLSB (Some (replicate 64 0%Z)) [] 1 = Ok r
    /\ take 32 (extractable_bits 1 (dataUrl r)) = replicate 32 false
    /\ header_value 1 (dataUrl r) = Some 0%Z
    /\ decodeLSB (Some (dataUrl r)) 1 = Throw InvalidHeader.
Proof.
  apply (empty_payload_not_recoverable (replicate 64 0%Z) 16 1).
  - apply Forall_replicate. unfold is_byte. lia.
  - reflexivity.
  - lia.
  - cbn. lia.
Defined.

(** * Further properties of the codec *)

(** ** The masks *)

Section Masks.

Context (k : nat) (Hk : 1 <= k <= 4).

Local Open Scope Z_scope.

Lemma masks_check_spec : masks_check k = true.
Proof.
  assert (k = 1 \/ k = 2 \/ k = 3 \/ k = 4)%nat as [->|[->|[->| ->]]] by lia;
    vm_compute; reflexivity.
Qed.

Lemma decoder_mask : shl32 1 k - 1 = 2 ^ Z.of_nat k - 1.
Proof.
  pose proof masks_check_spec as Hc. unfold masks_check in Hc.
  repeat (apply andb_prop in Hc as [Hc ?]). by apply Z.eqb_eq.
Qed.

(** On a byte the decoder's [data[i] & bitMask] is the low [k] bits. *)
Lemma and32_decoder_mask (d : Z) :
  is_byte d -> and32 d (shl32 1 k - 1) = Z.land d (2 ^ Z.of_nat k - 1).
Proof.
  intros Hd. pose proof masks_check_spec as Hc. unfold masks_check in Hc.
  repeat (apply andb_prop in Hc as [Hc ?]).
  unfold and32. rewrite (toInt32_small d) by (unfold is_byte in Hd; lia).
  f_equal. by apply Z.eqb_eq.
Qed.

(** On a byte the encoder's [data[i] & mask] only depends on the bits above
    the low [k]. *)
Lemma and32_encoder_mask (d : Z) :
  is_byte d ->
  and32 d (shl32 255 k)
  = Z.land (Z.land d (Z.lnot (2 ^ Z.of_nat k - 1))) (shl32 255 k).
Proof.
  intros Hd. pose proof masks_check_spec as Hc. unfold masks_check in Hc.
  repeat (apply andb_prop in Hc as [Hc ?]).
  repeat match goal with
         | H : (_ =? _) = true |- _ => apply Z.eqb_eq in H
         end.
  unfold and32. rewrite (toInt32_small d) by (unfold is_byte in Hd; lia).
  match goal with H : toInt32 (shl32 255 k) = _ |- _ => rewrite H end.
  rewrite <- Z.land_assoc. f_equal. done.
Qed.


End Masks.

(** ** Encoding over an encoded buffer *)

Section Overwrite.

Context (k : nat) (Hk : 1 <= k <= 4).

Local Abbreviation mask := (shl32 255 k).

(** A second store at a byte forgets the first. *)
Lemma stored_twice (d : Z) (c1 c2 : bits) :
  is_byte d -> length c1 = k ->
  clamp8 (or32 (and32 (clamp8 (or32 (and32 d mask)
                                    (toInt32_num (parseInt2 c1))))
                      mask)
               (toInt32_num (parseInt2 c2)))
  = clamp8 (or32 (and32 d mask) (toInt32_num (parseInt2 c2))).
Proof.
  intros Hd Hc1.
  destruct (stored_byte k Hk d c1 Hd Hc1) as (Hs & Hhigh & _).
  rewrite (and32_encoder_mask k Hk _ Hs), Hhigh.
  by rewrite <- (and32_encoder_mask k Hk d Hd).
Qed.

Lemma encode_walk_overwrite (F1 F2 : bits) (rest : list Z)
    (i b1 b2 : nat) :
  Forall is_byte rest ->
  length F1 - b1 <= length F2 - b2 ->
  encode_walk F2 k mask i b2 (encode_walk F1 k mask i b1 rest)
  = encode_walk F2 k mask i b2 rest.
Proof.
  intros Hrest. revert i b1 b2.
  induction Hrest as [|d rest Hd Hrest IH]; intros i b1 b2 Hrem; [done|].
  cbn [encode_walk].
  destruct (Nat.ltb_spec b1 (length F1)) as [H1|H1]; [|done].
  destruct ((i + 1) mod 4 =? 0) eqn:Ha; cbn [encode_walk]; rewrite Ha;
    destruct (Nat.ltb_spec b2 (length F2)) as [H2|H2]; try lia.
  - f_equal. apply IH. lia.
  - rewrite stored_twice by (done || apply length_hidden_chunk).
    f_equal. apply IH. lia.
Qed.

End Overwrite.

(** X1: encoding a second message into an encoded buffer gives the buffer
    that encoding it into the original gives, when its bit-sequence is at
    least as long as the first one: nothing of the first message is left.
    In particular encoding the same message twice changes nothing more. *)
Theorem reencode_overwrites (data : list Z) (k : nat) (P1 P2 : list N) :
  Forall is_byte data -> 1 <= k <= 4 ->
  length (fullBinary_of P1) <= length (fullBinary_of P2) ->
  exists r1 r2 r,
    encodeLSB (Some data) P1 k = Ok r1
    /\ encodeLSB (Some (dataUrl r1)) P2 k = Ok r2
    /\ encodeLSB (Some data) P2 k = Ok r
    /\ dataUrl r2 = dataUrl r.
Proof.
  intros Hdata Hk Hlen. do 3 eexists.
  split; [reflexivity|]. split; [reflexivity|]. split; [reflexivity|].
  cbn [dataUrl]. rewrite !encoded_walk.
  apply encode_walk_overwrite; [done..|lia].
Qed.

Lemma reencode_overwrites_witness :
  exists r1 r2 r,
    encodeLSB (Some (replicate 64 0%Z)) [65%N] 1 = Ok r1
    /\ encodeLSB (Some (dataUrl r1)) [66%N; 67%N] 1 = Ok r2
    /\ encodeLSB (Some (replicate 64 0%Z)) [66%N; 67%N] 1 = Ok r
    /\ dataUrl r2 = dataUrl r.
Proof.
  apply (reencode_overwrites (replicate 64 0%Z) 1 [65%N] [66%N; 67%N]).
  - apply Forall_replicate. unfold is_byte. lia.
  - lia.
  - vm_compute. lia.
Defined.

(** ** The decoder as a function of the digits of the colour bytes *)

Lemma decode_is_direct (data : list Z) (n k : nat) :
  Forall is_byte data -> length data = 4 * n -> 1 <= k <= 4 ->
  decodeLSB (Some data) k = decode_direct n k (extractable_bits k data).
Proof.
  intros Hdata Hlen Hk. cbn [decodeLSB]. unfold decode_direct.
  destruct (Z.ltb_spec (Z.of_nat (n * 3 * k)) 32) as [Hsmall|Hbig].
  { by rewrite (decode_walk_too_small data k n Hlen Hsmall). }
  pose proof (header_value_some data k n Hdata Hlen Hk Hbig) as Hheader.
  unfold header_value in Hheader. rewrite Hheader.
  set (m := digits_value (take 32 (extractable_bits k data))) in *.
  destruct (Z.leb_spec m 0) as [Hle|Hpos]; cbn [orb].
  { destruct (decode_walk_invalid data k n Hdata Hlen Hk m Hbig Hheader)
      as (i & -> & _); [by left|done]. }
  destruct (Z.gtb_spec m ((Z.of_nat (n * 3 * k) - 32) / 8)) as [Hover|Hfit].
  - destruct (decode_walk_invalid data k n Hdata Hlen Hk m Hbig Hheader)
      as (i & -> & _); [right; lia|done].
  - destruct (decode_walk_valid data k n Hdata Hlen Hk m Hbig Hheader)
      as (i & ->); [lia|]. cbn [snd].
    rewrite substring_le by lia. do 3 f_equal. lia.
Qed.

(** X2: the two loops of decode, which stop as soon as the header, then
    the payload, are read, give what reading all the digits of the colour
    bytes and then parsing gives. *)
Theorem decode_two_phases_direct (data : list Z) (n k : nat) :
  Forall is_byte data -> length data = 4 * n -> 1 <= k <= 4 ->
  decodeLSB (Some data) k = decode_direct n k (extractable_bits k data).
Proof. apply decode_is_direct. Qed.

Lemma decode_two_phases_direct_witness :
  decodeLSB (Some (replicate 64 0%Z)) 1
  = decode_direct 16 1 (extractable_bits 1 (replicate 64 0%Z)).
Proof.
  apply (decode_two_phases_direct (replicate 64 0%Z) 16 1).
  - apply Forall_replicate. unfold is_byte. lia.
  - reflexivity.
  - lia.
Defined.

Lemma channel_bits_low_bits (k : nat) (l1 l2 : list Z) (i0 : nat) :
  1 <= k <= 4 -> Forall is_byte l1 -> Forall is_byte l2 ->
  length l1 = length l2 ->
  (forall j d1 d2,
      (i0 + j + 1) mod 4 <> 0 -> l1 !! j = Some d1 -> l2 !! j = Some d2 ->
      (d1 mod 2 ^ Z.of_nat k = d2 mod 2 ^ Z.of_nat k)%Z) ->
  channel_bits k i0 l1 = channel_bits k i0 l2.
Proof.
  intros Hk H1. revert l2 i0.
  induction H1 as [|d1 l1 Hd1 _ IH]; intros [|d2 l2] i0 H2 Hlen Hlow;
    try done.
  cbn [channel_bits]. inversion H2 as [|? ? Hd2 H2']; subst.
  f_equal.
  - destruct (Nat.eqb_spec ((i0 + 1) mod 4) 0) as [|Ha]; [done|].
    unfold lsb_chunk.
    rewrite !(and32_decoder_mask k Hk) by done.
    replace (2 ^ Z.of_nat k - 1)%Z with (Z.ones (Z.of_nat k))
      by (rewrite Z.ones_equiv; lia).
    rewrite !Z.land_ones by lia.
    rewrite (Hlow 0 d1 d2); [done| |done..].
    by rewrite Nat.add_0_r.
  - apply IH; [done|by injection Hlen|].
    intros j e1 e2 Ha. apply (Hlow (S j)).
    by replace (i0 + S j + 1) with (S i0 + j + 1) by lia.
Qed.

(** X3: decode reads nothing but the low [k] bits of the colour bytes: two
    buffers of the same size that agree on them, whatever their alpha
    bytes and their upper bits, decode alike, to the same payload or the
    same error. *)
Theorem decode_reads_low_bits (data1 data2 : list Z) (n k : nat) :
  Forall is_byte data1 -> Forall is_byte data2 ->
  length data1 = 4 * n -> length data2 = 4 * n -> 1 <= k <= 4 ->
  (forall i d1 d2,
      (i + 1) mod 4 <> 0 -> data1 !! i = Some d1 -> data2 !! i = Some d2 ->
      (d1 mod 2 ^ Z.of_nat k = d2 mod 2 ^ Z.of_nat k)%Z) ->
  decodeLSB (Some data1) k = decodeLSB (Some data2) k.
Proof.
  intros H1 H2 Hl1 Hl2 Hk Hlow.
  rewrite (decode_is_direct data1 n k), (decode_is_direct data2 n k) by done.
  f_equal. apply channel_bits_low_bits; [done..|lia|exact Hlow].
Qed.

(** A white buffer and a nearly black one, both with odd bytes. *)
Lemma decode_reads_low_bits_witness :
  decodeLSB (Some (replicate 64 255%Z)) 1
  = decodeLSB (Some (replicate 64 1%Z)) 1.
Proof.
  apply (decode_reads_low_bits (replicate 64 255%Z) (replicate 64 1%Z) 16 1).
  - apply Forall_replicate. unfold is_byte. lia.
  - apply Forall_replicate. unfold is_byte. lia.
  - reflexivity.
  - reflexivity.
  - lia.
  - intros i d1 d2 _ Hd1 Hd2.
    apply lookup_replicate in Hd1 as [-> _].
    apply lookup_replicate in Hd2 as [-> _]. reflexivity.
Defined.

(** ** What encode leaves in the buffer *)






(** X5: whenever the colour bytes can hold 32 bits, the header that decode
    parses from an encoded buffer is the length of the message, whether or
    not the payload fits and whatever its characters. *)
Theorem header_after_encode (data : list Z) (n k : nat) (P : list N) :
  Forall is_byte data -> length data = 4 * n -> 1 <= k <= 4 ->
  32 <= n * 3 * k -> (Z.of_nat (length P) < 2 ^ 32)%Z ->
  exists r,
    encodeLSB (Some data) P k = Ok r
    /\ messageLength r = length P
    /\ header_value k (dataUrl r) = Some (Z.of_nat (length P)).
Proof.
  intros Hdata Hlen Hk Hbig Hshort. eexists. split; [reflexivity|].
  split; [reflexivity|]. cbn [dataUrl].
  by apply (encoded_header data k n).
Qed.

Lemma header_after_encode_witness :
  exists r,
    encodeLSB (Some (replicate 64 0%Z)) [8364%N; 8364%N; 8364%N] 1 = Ok r
    /\ messageLength r = 3
    /\ header_value 1 (dataUrl r) = Some 3%Z.
Proof.
  apply (header_after_encode (replicate 64 0%Z) 16 1
           [8364%N; 8364%N; 8364%N]).
  - apply Forall_replicate. unfold is_byte. lia.
  - reflexivity.
  - lia.
  - cbn. lia.
  - reflexivity.
Defined.

(** ** What decode returns *)

Lemma match_groups8_short (fuel : nat) (s : bits) :
  Forall (fun g => g <> [] /\ length g <= 8) (match_groups8 fuel s).
Proof.
  revert s. induction fuel as [|fuel IH]; intros s; cbn [match_groups8];
    [done|].
  destruct s as [|b s]; [done|]. constructor; [|apply IH].
  split; [done|]. rewrite length_take. lia.
Qed.

Lemma binToString_bytes (s : bits) :
  Forall (fun c => (c < 256)%N) (binToString s).
Proof.
  unfold binToString, match8. apply Forall_map.
  eapply Forall_impl; [apply match_groups8_short|].
  intros g [Hne Hlen]. cbn beta.
  rewrite (parseInt2_value g Hne). cbn [fromCharCode].
  pose proof (digits_value_bound g) as Hb.
  assert (2 ^ Z.of_nat (length g) <= 2 ^ 8)%Z
    by (apply Z.pow_le_mono_r; lia).
  rewrite Z.mod_small by lia. lia.
Qed.

(** X6: a payload that decode returns is never empty, has the length the
    header says, at most [floor((n*3*k - 32) / 8)], and holds only
    characters below 256. *)
Theorem decoded_payload_shape (data : list Z) (n k : nat)
    (payload : list N) :
  Forall is_byte data -> length data = 4 * n -> 1 <= k <= 4 ->
  decodeLSB (Some data) k = Ok payload ->
  header_value k data = Some (Z.of_nat (length payload))
  /\ (1 <= Z.of_nat (length payload) <= (Z.of_nat (n * 3 * k) - 32) / 8)%Z
  /\ Forall (fun c => (c < 256)%N) payload.
Proof.
  intros Hdata Hlen Hk. rewrite (decode_is_direct data n k) by done.
  unfold decode_direct, header_value.
  pose proof (length_extractable_bits k n data Hk Hdata Hlen) as HE.
  destruct (Z.ltb_spec (Z.of_nat (n * 3 * k)) 32) as [|Hbig]; [done|].
  destruct (parseInt2 _) as [m|]; [|done].
  destruct (Z.leb_spec m 0) as [|Hpos]; [done|]. cbn [orb].
  destruct (Z.gtb_spec m ((Z.of_nat (n * 3 * k) - 32) / 8)) as [|Hfit];
    [done|].
  intros [= <-].
  assert (32 + m * 8 <= Z.of_nat (n * 3 * k))%Z as Hfits.
  { pose proof (Z.mul_div_le (Z.of_nat (n * 3 * k) - 32) 8). lia. }
  rewrite (length_binToString (Z.to_nat m)).
  - rewrite Z2Nat.id by lia. split; [done|]. split; [lia|].
    apply binToString_bytes.
  - rewrite substring_le, length_take, length_drop, HE by lia. lia.
Qed.

(** On the buffer that encode makes of an all-zero 4x4 buffer and "A". *)
Lemma decoded_payload_shape_witness :
  header_value 1
    (encode_loop (fullBinary_of [65%N]) 1 (shl32 255 1) 64 0 0
                 (replicate 64 0%Z))
  = Some (Z.of_nat (length [65%N]))
  /\ (1 <= Z.of_nat (length [65%N]) <= (Z.of_nat (16 * 3 * 1) - 32) / 8)%Z
  /\ Forall (fun c => (c < 256)%N) [65%N].
Proof.
  apply (decoded_payload_shape
           (encode_loop (fullBinary_of [65%N]) 1 (shl32 255 1) 64 0 0
                        (replicate 64 0%Z)) 16 1).
  - vm_compute. repeat constructor; discriminate.
  - reflexivity.
  - lia.
  - vm_compute. reflexivity.
Defined.

(** Whatever the buffer, a payload that decode returns holds only
    characters below 256. *)
Lemma decode_ok_bytes (canvas : Canvas) (k : nat) (payload : list N) :
  decodeLSB canvas k = Ok payload -> Forall (fun c => (c < 256)%N) payload.
Proof.
  destruct canvas as [data|]; [|done]. cbn [decodeLSB]. unfold decode_walk.
  destruct (num_lt _ _); [done|].
  destruct (extract_loop _ _ _ 32 _ _ _) as [bs1 i1].
  destruct (parseInt2 _) as [m|]; [|done].
  destruct (_ || _); [done|].
  destruct (extract_loop _ _ _ _ _ _ _) as [bs2 i2].
  destruct (_ <? _)%Z; [done|]. cbn [snd].
  intros [= <-]. apply binToString_bytes.
Qed.

(** X7: a message with a character of code 256 or more is never recovered:
    encode accepts it, and decoding the encoded buffer, whatever the buffer
    and the bit depth, does not return it. *)
Theorem wide_message_never_recovered (data : list Z) (k : nat)
    (P : list N) :
  Exists (fun c => (256 <= c)%N) P ->
  exists r,
    encodeLSB (Some data) P k = Ok r
    /\ decodeLSB (Some (dataUrl r)) k <> Ok P.
Proof.
  intros Hwide. eexists. split; [reflexivity|].
  intros Hdec. apply decode_ok_bytes in Hdec.
  apply Exists_exists in Hwide as (c & Hin & Hc).
  rewrite Forall_forall in Hdec. specialize (Hdec c Hin). lia.
Qed.

Lemma wide_message_never_recovered_witness :
  exists r,
    encodeLSB (Some (replicate 64 0%Z)) [8364%N] 1 = Ok r
    /\ decodeLSB (Some (dataUrl r)) 1 <> Ok [8364%N].
Proof.
  apply (wide_message_never_recovered (replicate 64 0%Z) 1 [8364%N]).
  apply Exists_cons_hd. vm_compute. discriminate.
Defined.

(** X8: on a buffer of whole pixels decode never throws the error of a
    message ended prematurely: a header that passes the validation never
    asks for more digits than the colour bytes hold. *)
Theorem truncated_is_unreachable (data : list Z) (n k : nat) :
  Forall is_byte data -> length data = 4 * n -> 1 <= k <= 4 ->
  decodeLSB (Some data) k <> Throw Truncated
  /\ forall m : Z,
       header_value k data = Some m ->
       (0 < m <= (Z.of_nat (n * 3 * k) - 32) / 8)%Z ->
       (32 + m * 8 <= Z.of_nat (length (extractable_bits k data)))%Z.
Proof.
  intros Hdata Hlen Hk. split; [by apply (decode_never_truncated data n k)|].
  intros m _ Hvalid.
  rewrite (length_extractable_bits k n data Hk Hdata Hlen).
  pose proof (Z.mul_div_le (Z.of_nat (n * 3 * k) - 32) 8). lia.
Qed.

(** On the opaque grey 4x4 buffer in which "Hi" is encoded with one bit
    per channel: the header 2 passes the validation, and its 48 digits are
    all the digits the buffer holds. *)
Lemma truncated_is_unreachable_witness :
  let data :=
    encode_loop (fullBinary_of [72%N; 105%N]) 1 (shl32 255 1) 64 0 0
                Samples.grey in
  decodeLSB (Some data) 1 <> Throw Truncated
  /\ header_value 1 data = Some 2%Z
  /\ (0 < 2 <= (Z.of_nat (16 * 3 * 1) - 32) / 8)%Z
  /\ (32 + 2 * 8 <= Z.of_nat (length (extractable_bits 1 data)))%Z
  /\ decodeLSB (Some data) 1 = Ok [72%N; 105%N].
Proof.
  intros data.
  destruct (truncated_is_unreachable data 16 1) as [Hnever Hfits].
  - vm_compute. repeat constructor; discriminate.
  - reflexivity.
  - lia.
  - assert (header_value 1 data = Some 2%Z) as Hheader
      by (vm_compute; reflexivity).
    assert (0 < 2 <= (Z.of_nat (16 * 3 * 1) - 32) / 8)%Z as Hvalid
      by (vm_compute; split; [reflexivity|discriminate]).
    split; [exact Hnever|]. split; [exact Hheader|].
    split; [exact Hvalid|]. split; [exact (Hfits 2%Z Hheader Hvalid)|].
    vm_compute. reflexivity.
Defined.

(** ** Characters and digits *)

Lemma pos_bits_length_value (p : positive) (n : nat) :
  length (pos_bits p) <= n -> (Z.pos p < 2 ^ Z.of_nat n)%Z.
Proof.
  revert n. induction p as [q IH|q IH|]; intros [|n];
    cbn [pos_bits]; rewrite ?length_app; cbn [length]; try lia;
    intros Hlen; rewrite Nat2Z.inj_succ, Z.pow_succ_r by lia.
  - specialize (IH n ltac:(lia)). lia.
  - specialize (IH n ltac:(lia)). lia.
  - assert (0 < 2 ^ Z.of_nat n)%Z by (apply Z.pow_pos_nonneg; lia). lia.
Qed.

Lemma length_char_digits_iff (c : N) :
  length (padStart 8 false (toString2 (Z.of_N c))) = 8 <-> (c < 256)%N.
Proof.
  split; [|apply length_char_digits].
  rewrite length_padStart. intros Hlen.
  destruct c as [|p]; [done|]. cbn [Z.of_N toString2] in Hlen.
  pose proof (pos_bits_length_value p 8 ltac:(lia)). lia.
Qed.

(** X9: [stringToBin] writes at least 8 digits for each character, and
    exactly 8 for each exactly when every character code is below 256. *)
Theorem stringToBin_length (message : list N) :
  8 * length message <= length (stringToBin message)
  /\ (length (stringToBin message) = 8 * length message
      <-> Forall (fun c => (c < 256)%N) message).
Proof.
  split; [apply length_stringToBin_ge|].
  split; [|apply length_stringToBin].
  induction message as [|c message IH]; [done|].
  unfold stringToBin in *. cbn [map concat length].
  rewrite length_app. intros Hlen.
  pose proof (length_stringToBin_ge message) as Hrest.
  unfold stringToBin in Hrest.
  pose proof (length_padStart 8 false (toString2 (Z.of_N c))) as Hc.
  constructor.
  - apply length_char_digits_iff. lia.
  - apply IH. lia.
Qed.

Lemma stringToBin_groups (m fuel : nat) (s : bits) :
  length s = 8 * m -> length s <= fuel ->
  concat
    (map (fun char => padStart 8 false (toString2 (Z.of_N char)))
         (map (fun byte => fromCharCode (parseInt2 byte))
              (match_groups8 fuel s)))
  = s.
Proof.
  revert fuel s. induction m as [|m IH]; intros fuel s Hs Hfuel.
  - destruct s; [|done]. by destruct fuel.
  - destruct fuel as [|fuel]; [lia|]. cbn [match_groups8].
    destruct s as [|b s'] eqn:Es; [done|]. rewrite <- Es in *.
    cbn [map concat].
    rewrite IH by (rewrite length_drop; lia).
    assert (length (take 8 s) = 8) as Hg by (rewrite length_take; lia).
    assert (take 8 s <> []) as Hne by (intros E; rewrite E in Hg; done).
    rewrite (parseInt2_value _ Hne). cbn [fromCharCode].
    pose proof (digits_value_bound (take 8 s)) as Hb. rewrite Hg in Hb.
    rewrite Z.mod_small, Z2N.id by (cbn in Hb; lia).
    rewrite <- Hg at 1. rewrite padStart_toString2_digits by done.
    apply take_drop.
Qed.

(** X10: [stringToBin] and [binToString] are inverse to each other between
    the strings of characters below 256 and the bit strings whose length is
    a multiple of 8. *)
Theorem stringToBin_binToString_inverse :
  (forall message : list N,
      Forall (fun c => (c < 256)%N) message ->
      binToString (stringToBin message) = message)
  /\ (forall (bin : bits) (m : nat),
         length bin = 8 * m ->
         stringToBin (binToString bin) = bin
         /\ length (binToString bin) = m).
Proof.
  split; [apply binToString_stringToBin|].
  intros bin m Hlen. split; [|by apply length_binToString].
  unfold stringToBin, binToString, match8.
  by apply (stringToBin_groups m).
Qed.

Lemma stringToBin_binToString_inverse_witness :
  binToString (stringToBin [72%N; 105%N]) = [72%N; 105%N]
  /\ stringToBin (binToString (replicate 16 true)) = replicate 16 true.
Proof.
  split.
  - apply (proj1 stringToBin_binToString_inverse). repeat constructor.
  - apply (proj2 stringToBin_binToString_inverse _ 2). reflexivity.
Defined.

(** * Further properties of the application *)

(** ** The capacity shown *)

Lemma Qmult_mono (a b c d : Q) :
  (0 <= a <= c)%Q -> (0 <= b <= d)%Q -> (0 <= a * b <= c * d)%Q.
Proof.
  intros Ha Hb. split.
  - apply Qmult_le_0_compat; [apply Ha|apply Hb].
  - by apply Qmult_le_compat_nonneg.
Qed.

Lemma inject_nat_mono (a b : nat) :
  a <= b ->
  (0 <= inject_Z (Z.of_nat a) <= inject_Z (Z.of_nat b))%Q.
Proof.
  intros Hab. change 0%Q with (inject_Z 0).
  split; rewrite <- Zle_Qle; lia.
Qed.

(** X11: the capacity shown does not decrease when the image, the scale or
    the bit depth grows. *)
Theorem app_capacity_monotone (w h k w' h' k' : nat) (s s' : Q) :
  w <= w' -> h <= h' -> k <= k' -> (0 <= s <= s')%Q ->
  (App.capacity w h s k <= App.capacity w' h' s' k')%Z.
Proof.
  intros Hw Hh Hk Hs. unfold App.capacity.
  apply Z.max_le_compat_l, Z.sub_le_mono_r, Qfloor_resp_le.
  apply Qmult_le_compat_r; [|done].
  apply Qmult_mono; [|by apply inject_nat_mono].
  apply Qmult_mono; [|done].
  apply Qmult_mono; apply Qmult_mono; (done || by apply inject_nat_mono).
Qed.

Lemma app_capacity_monotone_witness :
  (App.capacity 10 10 1 1 <= App.capacity 10 12 (3 # 2) 2)%Z.
Proof.
  apply (app_capacity_monotone 10 10 1 10 12 2 1 (3 # 2)); try lia.
  split; discriminate.
Defined.

Lemma app_capacity_pixels (w h s k : nat) :
  App.capacity w h (inject_Z (Z.of_nat s)) k
  = Z.max 0 (Z.of_nat ((w * s) * (h * s) * 3 * k) / 8 - 4).
Proof.
  unfold App.capacity.
  assert ((inject_Z (Z.of_nat w) * inject_Z (Z.of_nat s)
           * (inject_Z (Z.of_nat h) * inject_Z (Z.of_nat s))
           * 3 * inject_Z (Z.of_nat k) / 8
           == Z.of_nat ((w * s) * (h * s) * 3 * k) # 8)%Q)
    as ->; [|reflexivity].
  unfold Qeq. cbn. lia.
Qed.

(** X12: on a buffer of [w * h] pixels the capacity that encode returns is
    [floor(w * h * 3 * k / 8)] whatever the message, and the capacity the
    application shows for the same image at scale 1 is that number less the
    4 bytes of the header, or 0. *)
Theorem encode_capacity_and_app_capacity (data : list Z) (w h k : nat)
    (P : list N) :
  length data = 4 * (w * h) ->
  exists r,
    encodeLSB (Some data) P k = Ok r
    /\ capacity r = (Z.of_nat (w * h * 3 * k) / 8)%Z
    /\ App.capacity w h 1 k = Z.max 0 (capacity r - 4).
Proof.
  intros Hlen. eexists. split; [reflexivity|]. cbn [capacity].
  rewrite (encode_capacity_pixels data k (w * h) Hlen).
  split; [reflexivity|].
  change 1%Q with (inject_Z (Z.of_nat 1)).
  by rewrite app_capacity_pixels, !Nat.mul_1_r.
Qed.

Lemma encode_capacity_and_app_capacity_witness :
  exists r,
    encodeLSB (Some (replicate 1600 0%Z)) [65%N] 1 = Ok r
    /\ capacity r = (Z.of_nat (20 * 20 * 3 * 1) / 8)%Z
    /\ App.capacity 20 20 1 1 = Z.max 0 (capacity r - 4).
Proof.
  apply (encode_capacity_and_app_capacity (replicate 1600 0%Z) 20 20 1).
  reflexivity.
Defined.

(** ** The process button *)


(** Decoding what the encoder's loop leaves, when the frame does not fit. *)
Lemma decode_overflowed (data : list Z) (n k : nat) (P : list N) :
  Forall is_byte data -> length data = 4 * n -> 1 <= k <= 4 ->
  (Z.of_nat (length P) < 2 ^ 32)%Z ->
  32 <= n * 3 * k < 32 + 8 * length P ->
  decodeLSB
    (Some (encode_loop (fullBinary_of P) k (shl32 255 k) (length data) 0 0
                       data)) k
  = Throw InvalidHeader.
Proof.
  intros Hdata Hlen Hk Hshort Hover.
  pose proof (encoded_bytes data k P Hk Hdata) as Hout.
  pose proof (length_encoded_pixels data k n Hlen P) as Hlout.
  apply (decode_throws_on_invalid_header _ n k (Z.of_nat (length P)));
    [done..|lia| |].
  - apply (encoded_header data k n); [done..|lia|done].
  - right. apply Z.lt_gt, Z.div_lt_upper_bound; lia.
Qed.

Section Process.

Import Handlers.

Context {Image : Type}.
Context (width height : Image -> nat).
Context (scaleImage : Image -> Q -> Canvas).
Context (drawImage : Image -> Canvas).

Local Abbreviation handle := (handleProcess scaleImage drawImage).


(** X14: the test is all there is: when the canvas that [scaleImage] gives
    holds fewer bits than the message needs, though the capacity in the
    state lets the message pass, the message is encoded with no error into
    a result from which decode only gets the invalid-header error. *)
Theorem process_truncates_silently (st : State) (img : Image)
    (data : list Z) (n : nat) :
  originalImage st = Some img ->
  mode st = encode ->
  scaleImage img (scale st) = Some data ->
  Forall is_byte data ->
  length data = 4 * n ->
  1 <= bitsPerChannel st <= 4 ->
  (Z.of_nat (length (message st)) < 2 ^ 32)%Z ->
  (Z.of_nat (length (message st)) <= Handlers.capacity st)%Z ->
  32 <= n * 3 * bitsPerChannel st < 32 + 8 * length (message st) ->
  exists out,
    resultImage (handle st) = Some out
    /\ error (handle st) = None
    /\ decodeLSB (Some out) (bitsPerChannel st) = Throw InvalidHeader.
Proof.
  intros Himg Hmode Hcanvas Hdata Hlen Hk Hshort Hguard Hover.
  pose proof (decode_overflowed data n _ _ Hdata Hlen Hk Hshort Hover)
    as Hdec.
  eexists. split; [|split; [|exact Hdec]];
    unfold handleProcess, process;
    rewrite Himg, Hmode, Hcanvas;
    (destruct (Z.gtb_spec (Z.of_nat (length (message st)))
                          (Handlers.capacity st)); [lia|]);
    reflexivity.
Qed.

(** X15: a run that ends with an error leaves the result image and the
    decoded message of the state as they were. *)
Theorem process_failure_keeps_results (st : State) :
  error (handle st) <> None ->
  resultImage (handle st) = resultImage st
  /\ decodedMessage (handle st) = decodedMessage st.
Proof.
  unfold handleProcess.
  destruct (originalImage st) as [img|]; [|done].
  destruct (process _ _ img st) as [err|update] eqn:Hp; [done|].
  unfold process in Hp.
  destruct (mode st).
  - destruct (scaleImage _ _); [|done].
    destruct (_ >? _)%Z; [done|].
    destruct (encodeLSB _ _ _); [|done].
    injection Hp as <-. done.
  - destruct (decodeLSB _ _); [|done].
    injection Hp as <-. done.
Qed.

End Process.


Lemma process_truncates_silently_witness :
  Handlers.capacity_synced (fun _ => 3) (fun _ => 3) Samples.overestimated
  /\ exists out,
       Handlers.resultImage
         (Handlers.handleProcess Samples.zero_canvas Samples.no_canvas
                                 Samples.overestimated) = Some out
       /\ Handlers.error
            (Handlers.handleProcess Samples.zero_canvas Samples.no_canvas
                                    Samples.overestimated) = None
       /\ decodeLSB (Some out) 1 = Throw InvalidHeader.
Proof.
  split; [reflexivity|].
  apply (process_truncates_silently Samples.zero_canvas Samples.no_canvas
           Samples.overestimated tt (replicate 64 0%Z) 16).
  - reflexivity.
  - reflexivity.
  - reflexivity.
  - apply Forall_replicate. unfold is_byte. lia.
  - reflexivity.
  - cbn. lia.
  - reflexivity.
  - vm_compute. discriminate.
  - cbn. lia.
Defined.

Lemma process_failure_keeps_results_witness :
  Handlers.resultImage
    (Handlers.handleProcess Samples.zero_canvas Samples.no_canvas
                            Samples.too_long)
  = Some (replicate 64 1%Z)
  /\ Handlers.decodedMessage
       (Handlers.handleProcess Samples.zero_canvas Samples.no_canvas
                               Samples.too_long) = None.
Proof.
  apply (process_failure_keeps_results Samples.zero_canvas Samples.no_canvas
           Samples.too_long).
  vm_compute. discriminate.
Defined.
